(** * Road-network download script: resume loop and component reduction

    A shallow embedding of [Step_1_save_road_network_geometry.py].

    The script reads city boundaries, and for every city that is not
    already done it reduces the boundary to one simplified polygon, asks
    the map provider for the road network inside it, keeps the largest
    connected component, saves it as [<city>.graphml] and appends one row
    to a CSV log that doubles as the resume checkpoint.

    The file system, the CSV log and the sequence of external calls form
    an explicit [world]; the third-party libraries (shapely, osmnx, the
    GraphML writer, the type inference of pandas) are an [env] of
    functions the development is parametric in.  Console output
    ([print]) is not part of the model. *)

From Stdlib Require Import QArith Qabs Ascii.
From stdpp Require Import base decidable relations list strings gmap.

Local Open Scope string_scope.
Local Open Scope list_scope.

(** ** Exceptions

    A Python call either returns a value or raises; [Raise] carries the
    text [str(e)] of the exception, which is all the script looks at. *)

Inductive result (A : Type) : Type :=
  | Ok (a : A)
  | Raise (msg : string).
Arguments Ok {A} a.
Arguments Raise {A} msg.

Definition bind {A B} (m : result A) (k : A → result B) : result B :=
  match m with
  | Ok a => k a
  | Raise e => Raise e
  end.

(** Python's [max(xs, key=key)]: the first element whose key is not
    exceeded, [ValueError] on an empty sequence.  [ltb a b] decides
    [a < b] on keys. *)

Definition max_empty_msg : string := "max() arg is an empty sequence".

Fixpoint max_from {A K} (ltb : K → K → bool) (key : A → K)
    (best : A) (xs : list A) : A :=
  match xs with
  | [] => best
  | x :: xs' => max_from ltb key (if ltb (key best) (key x) then x else best) xs'
  end.

Definition py_max {A K} (ltb : K → K → bool) (key : A → K)
    (xs : list A) : result A :=
  match xs with
  | [] => Raise max_empty_msg
  | x :: xs' => Ok (max_from ltb key x xs')
  end.

(** ** Proof steps used throughout *)

(** Nothing is a member of the empty list. *)
Ltac no_elem :=
  repeat intro; match goal with H : _ ∈ [] |- _ => inversion H end.

(** Membership in a list that computes. *)
Ltac in_list := vm_compute; repeat constructor.

(** ** Undirected multigraphs *)

Module Graph.

(** A graph as built by [add_nodes_from (g_nodes)] followed by
    [add_edges_from (g_edges)]: adding an edge adds its end points, nodes
    iterate in order of first insertion, parallel edges are repeated
    entries of [g_edges].  Edge keys and attributes travel with the edge
    and play no part in what follows. *)

Record graph : Type := mkGraph {
  g_nodes : list nat;
  g_edges : list (nat * nat)
}.

Fixpoint first_seen (seen l : list nat) : list nat :=
  match l with
  | [] => []
  | x :: l' =>
      if decide (x ∈ seen) then first_seen seen l'
      else x :: first_seen (x :: seen) l'
  end.

Definition endpoints (es : list (nat * nat)) : list nat :=
  flat_map (λ e, [e.1; e.2]) es.

(** Iteration order of [G.nodes]. *)
Definition nodes (G : graph) : list nat :=
  first_seen [] (g_nodes G ++ endpoints (g_edges G)).

Definition number_of_nodes (G : graph) : nat := length (nodes G).
Definition number_of_edges (G : graph) : nat := length (g_edges G).

(** [G.adj[v]]: the other end of every edge at [v]. *)
Definition neighbors (G : graph) (v : nat) : list nat :=
  flat_map (λ e, (if decide (e.1 = v) then [e.2] else [])
                 ++ (if decide (e.2 = v) then [e.1] else []))
           (g_edges G).

(** *** [nx.connected_components]

    [_plain_bfs]: level by level, [seen] collects the nodes reached and
    [next] the nodes first reached in this level. *)

Fixpoint visit (ws seen next : list nat) : list nat * list nat :=
  match ws with
  | [] => (seen, next)
  | w :: ws' =>
      if decide (w ∈ seen) then visit ws' seen next
      else visit ws' (seen ++ [w]) (next ++ [w])
  end.

Fixpoint scan_level (G : graph) (thislevel seen next : list nat)
    : list nat * list nat :=
  match thislevel with
  | [] => (seen, next)
  | v :: rest =>
      let '(seen', next') := visit (neighbors G v) seen next in
      scan_level G rest seen' next'
  end.

(** The [while nextlevel:] loop; every round but the last reaches a new
    node, so [S (number_of_nodes G)] rounds are enough: the loop has then
    ended on an empty level, and more rounds return the same set
    ([plain_bfs_closed], [plain_bfs_fuel]).  The early return of
    [_plain_bfs], taken once every node left is seen, returns that set
    too and is not modelled. *)
Fixpoint bfs_rounds (fuel : nat) (G : graph) (seen nextlevel : list nat)
    : list nat :=
  match fuel, nextlevel with
  | 0, _ => seen
  | _, [] => seen
  | S fuel', _ =>
      let '(seen', next') := scan_level G nextlevel seen [] in
      bfs_rounds fuel' G seen' next'
  end.

Definition plain_bfs (G : graph) (source : nat) : list nat :=
  bfs_rounds (S (number_of_nodes G)) G [source] [source].

Fixpoint components_from (G : graph) (vs seen : list nat)
    : list (list nat) :=
  match vs with
  | [] => []
  | v :: vs' =>
      if decide (v ∈ seen) then components_from G vs' seen
      else let c := plain_bfs G v in
           c :: components_from G vs' (seen ++ c)
  end.

Definition connected_components (G : graph) : list (list nat) :=
  components_from G (nodes G) [].

(** [G.subgraph(c).copy()]: the nodes of [G] that lie in [c] and every
    edge of [G] between two of them, each as often as in [G].  The
    result is a value of its own, not a view of [G].  The copy is listed
    here in the order of [G]; networkx walks the set [c] instead when
    the component has fewer than half of the nodes of [G], so the order
    in which a copy lists its nodes and edges is not part of the model,
    and the statements about a copy are about membership and counts. *)
Definition subgraph (G : graph) (c : list nat) : graph :=
  {| g_nodes := filter (λ v, v ∈ c) (nodes G);
     g_edges := filter (λ e, e.1 ∈ c ∧ e.2 ∈ c) (g_edges G) |}.

Definition largest_connected_component (G : graph) : result graph :=
  bind (py_max Nat.ltb length (connected_components G))
       (λ largest_component, Ok (subgraph G largest_component)).

(** *** What a connected component is *)

Definition adjacent (G : graph) (u v : nat) : Prop :=
  (u, v) ∈ g_edges G ∨ (v, u) ∈ g_edges G.

Definition connected (G : graph) : nat → nat → Prop := rtc (adjacent G).

(** A maximal set of mutually reachable nodes, listed without repeats. *)
Definition is_component (G : graph) (c : list nat) : Prop :=
  c ≠ [] ∧ NoDup c ∧ (∀ u, u ∈ c → u ∈ nodes G) ∧
  ∀ u v, u ∈ c → (v ∈ c ↔ connected G u v).

(** The state of the search from [s]: everything seen is reachable, and
    a node seen before the current level has all its neighbours seen. *)
Definition search_inv (G : graph) (s : nat) (seen level : list nat) : Prop :=
  NoDup seen ∧ (∀ x, x ∈ level → x ∈ seen) ∧
  (∀ x, x ∈ seen → connected G s x) ∧ (∀ x, x ∈ seen → x ∈ nodes G) ∧
  (∀ x y, x ∈ seen → x ∉ level → adjacent G x y → y ∈ seen).

(** A finished search: reachable nodes only, closed under adjacency. *)
Definition search_done (G : graph) (s : nat) (R : list nat) : Prop :=
  NoDup R ∧ (∀ x, x ∈ R → connected G s x) ∧ (∀ x, x ∈ R → x ∈ nodes G) ∧
  (∀ x y, x ∈ R → adjacent G x y → y ∈ R).

End Graph.

(** ** Boundary geometry *)

Module Geometry.

Record polygon : Type := mkPolygon {
  exterior : list (Q * Q);
  interiors : list (list (Q * Q))
}.

(** The two [geom_type]s a city boundary comes in. *)
Inductive shape : Type :=
  | Polygon (p : polygon)
  | MultiPolygon (geoms : list polygon).

Definition Qltb (a b : Q) : bool := negb (Qle_bool b a).

(** Truth value of a Python float: anything but zero. *)
Definition truthy (x : Q) : bool := negb (Qeq_bool x 0).

Section reducer.
(** shapely's [g.area] and [g.simplify(tolerance, preserve_topology)].
    [simplify] stands for the call with a tolerance that is not
    negative, as the script's 0.01 is: on a negative tolerance shapely
    raises. *)
Variable area : shape → Q.
Variable simplify : shape → Q → bool → shape.

Definition get_city_polygon (geom : shape) (tolerance : Q)
    : result shape :=
  bind (match geom with
        | MultiPolygon geoms => py_max Qltb area (map Polygon geoms)
        | _ => Ok geom
        end)
    (λ geom,
       Ok (if truthy tolerance then simplify geom tolerance true else geom)).
End reducer.

End Geometry.

(** ** The script *)

Module Script.
Import Graph Geometry.

(** *** Parameters *)

Definition save_dir : string := "data/城市道路网络数据".
Definition network_type : string := "drive_service".
Definition simplify_tolerance : Q := 1 # 100.
Definition header : list string :=
  ["city"; "status"; "nodes"; "edges"; "area_km2"].

(** *** Data *)

(** One row of the boundary file.  [name] is [str] of the value in the
    [name] column (in [NAME] where the file spells it so), as UTF-8
    bytes.  Every row has a geometry: a row without one ([None]), on
    which taking the area raises outside the [try] and ends the run, is
    not among the inputs modelled. *)
Record city_row : Type := mkCity {
  name : string;
  geometry : shape
}.

(** A result row; [None] is written as an empty field. *)
Record record : Type := mkRecord {
  city : string;
  status : string;
  nodes : option nat;
  edges : option nat;
  area_km2 : Q
}.

(** The CSV log on disk: nothing written yet, or a header line followed
    by rows.  A row is kept as the record [csv.DictWriter] was given;
    what [pd.read_csv] makes of its city field is [read_str] below. *)
Inductive csv_file : Type :=
  | EmptyFile
  | Table (fieldnames : list string) (rows : list record).

(** How [pd.read_csv] reads one field of a column: as a missing value
    (an empty field, [NA], [None], [nan], ...), as a number, as a
    boolean, or as text. *)
Inductive field_kind : Type :=
  | Missing
  | Number
  | Boolean
  | Text.

(** What the provider returns: a directed multigraph, arcs with keys. *)
Record digraph : Type := mkDigraph {
  d_nodes : list nat;
  d_arcs : list (nat * nat * nat)
}.

Inductive file_content : Type :=
  | GraphML (G : graph)
  | Truncated.

(** External calls, in the order they happen.  A download is recorded
    with the city it is made for. *)
Inductive event : Type :=
  | EvDownload (city : string) (polygon : shape) (network : string)
  | EvSave (path : string) (G : graph)
  | EvSleep (seconds : nat).

(** The output directory, the log and the calls made so far.  [files]
    holds the [.graphml] files under the path they were saved to; two
    path strings that the file system resolves to one file are not
    modelled.  The log [city_road_stats.csv] is a file of the same
    directory, kept apart as [csv]. *)
Record world : Type := mkWorld {
  files : gmap string file_content;
  csv : option csv_file;
  trace : list event
}.

(** [ox.save_graphml] hands the graph to the GraphML writer, which opens
    its target before it serialises: when the save raises, [left_file]
    tells whether the target was created.  The script has no clean-up of
    its own. *)
Inductive save_outcome : Type :=
  | Saved
  | SaveError (msg : string) (left_file : bool).

(** The libraries and the services behind them.  The answer of the map
    provider and the outcome of a save may depend on everything that
    happened before.  [pd_kind] is the type inference of [pd.read_csv]
    on a field. *)
Record env : Type := mkEnv {
  area : shape → Q;
  simplify : shape → Q → bool → shape;
  to_crs : shape → nat → shape;
  graph_from_polygon :
    list event → shape → string → result digraph;
  to_undirected : digraph → graph;
  save_graphml : list event → graph → string → save_outcome;
  pd_kind : string → field_kind
}.

(** *** Strings and paths *)

(** A [str] is held as its UTF-8 bytes. *)
Definition utf8 (bytes : list nat) : string :=
  String.string_of_list_ascii (map ascii_of_nat bytes).

(** The characters [str.isspace] accepts, which [str.strip] removes:
    U+0009 to U+000D, U+001C to U+0020, U+0085, U+00A0, U+1680, U+2000
    to U+200A, U+2028, U+2029, U+202F, U+205F and U+3000. *)
Definition whitespace : list string :=
  map utf8
    [[9]; [10]; [11]; [12]; [13]; [28]; [29]; [30]; [31]; [32];
     [194; 133]; [194; 160]; [225; 154; 128];
     [226; 128; 128]; [226; 128; 129]; [226; 128; 130]; [226; 128; 131];
     [226; 128; 132]; [226; 128; 133]; [226; 128; 134]; [226; 128; 135];
     [226; 128; 136]; [226; 128; 137]; [226; 128; 138];
     [226; 128; 168]; [226; 128; 169]; [226; 128; 175];
     [226; 129; 159]; [227; 128; 128]].

(** [s] without the prefix [prefix], when it starts with it. *)
Fixpoint drop_prefix (prefix s : string) : option string :=
  match prefix, s with
  | EmptyString, _ => Some s
  | String a prefix', String b s' =>
      if bool_decide (a = b) then drop_prefix prefix' s' else None
  | String _ _, EmptyString => None
  end.

(** [s] without its first character, when that is one of [chars]. *)
Fixpoint drop_char (chars : list string) (s : string) : option string :=
  match chars with
  | [] => None
  | c :: chars' =>
      match drop_prefix c s with
      | Some s' => Some s'
      | None => drop_char chars' s
      end
  end.

(** Every round removes a character, so as many rounds as [s] has bytes
    remove all there is to remove. *)
Fixpoint lstrip_chars (rounds : nat) (chars : list string) (s : string)
    : string :=
  match rounds with
  | 0 => s
  | S rounds' =>
      match drop_char chars s with
      | Some s' => lstrip_chars rounds' chars s'
      | None => s
      end
  end.

Definition lstrip (s : string) : string :=
  lstrip_chars (String.length s) whitespace s.

(** The same from the right end, on the reversed bytes: in UTF-8 the
    bytes of one character are never the tail of another. *)
Definition rstrip (s : string) : string :=
  String.rev
    (lstrip_chars (String.length s) (map String.rev whitespace) (String.rev s)).

(** [str.strip()] *)
Definition strip (s : string) : string := rstrip (lstrip s).

Definition isabs (path : string) : bool :=
  match path with
  | String a _ => bool_decide (a = "/"%char)
  | EmptyString => false
  end.

(** [os.path.join] with POSIX separators: an absolute second part
    replaces the first. *)
Definition path_join (a b : string) : string :=
  if isabs b then b else a +:+ "/" +:+ b.

Definition save_path_of (name : string) : string :=
  path_join save_dir (name +:+ ".graphml").

(** *** State and exceptions *)

Definition M (A : Type) : Type := world → world * result A.

Definition ret {A} (a : A) : M A := λ w, (w, Ok a).

Definition lift {A} (r : result A) : M A := λ w, (w, r).

Definition mbind {A B} (m : M A) (k : A → M B) : M B :=
  λ w, match m w with
       | (w', Ok a) => k a w'
       | (w', Raise e) => (w', Raise e)
       end.

Notation "x <~ m ;; k" := (mbind m (λ x, k))
  (at level 20, m at level 99, k at level 200, only parsing).
Notation "m ;; k" := (mbind m (λ _, k))
  (at level 100, k at level 200, only parsing, right associativity).

(** [try: body except Exception as e: handler] *)
Definition try_except {A} (body : M A) (handler : string → M A) : M A :=
  λ w, match body w with
       | (w', Ok a) => (w', Ok a)
       | (w', Raise e) => handler e w'
       end.

Definition log (ev : event) (w : world) : world :=
  {| files := files w; csv := csv w; trace := trace w ++ [ev] |}.

Definition os_path_exists (path : string) : M bool :=
  λ w, (w, Ok (bool_decide (is_Some (files w !! path)))).

Definition ox_graph_from_polygon (E : env) (city : string)
    (geom : shape) (network : string) : M digraph :=
  λ w, (log (EvDownload city geom network) w,
        graph_from_polygon E (trace w) geom network).

Definition ox_save_graphml (E : env) (G : graph) (path : string) : M unit :=
  λ w,
    let w' := log (EvSave path G) w in
    match save_graphml E (trace w) G path with
    | Saved =>
        ({| files := <[path := GraphML G]> (files w');
            csv := csv w'; trace := trace w' |}, Ok tt)
    | SaveError e left_file =>
        ({| files := if left_file then <[path := Truncated]> (files w')
                     else files w';
            csv := csv w'; trace := trace w' |}, Raise e)
    end.

Definition time_sleep (seconds : nat) : M unit :=
  λ w, (log (EvSleep seconds) w, Ok tt).

(** [df.iloc[idx]] *)
Definition iloc {A} (df : list A) (idx : nat) : M A :=
  lift (match df !! idx with
        | Some x => Ok x
        | None => Raise "single positional indexer is out-of-bounds"
        end).

(** *** The CSV log *)

(** [pd.read_csv] types a column as a whole: as numbers when every
    field is a number or missing, as booleans when every field is a
    boolean or missing, and as objects otherwise.  Only in a column of
    objects does a field come back as the [str] that was written, and
    there a missing value comes back as NaN.  (pandas types a long file
    block by block; the log is taken to fit in one block.) *)
Definition numeric_column (E : env) (column : list string) : bool :=
  forallb (λ field, match pd_kind E field with
                    | Missing | Number => true
                    | _ => false
                    end) column.

Definition boolean_column (E : env) (column : list string) : bool :=
  forallb (λ field, match pd_kind E field with
                    | Missing | Boolean => true
                    | _ => false
                    end) column.

Definition text_column (E : env) (column : list string) : bool :=
  negb (numeric_column E column) && negb (boolean_column E column).

Definition is_missing (k : field_kind) : bool :=
  match k with Missing => true | _ => false end.

(** The [str] a field of [column] is read as, when it is read as one. *)
Definition read_str (E : env) (column : list string) (field : string)
    : option string :=
  if text_column E column && negb (is_missing (pd_kind E field))
  then Some field else None.

(** [pd.read_csv] and the selection of the successful cities.  The set
    the script builds holds the values of the typed column: numbers,
    booleans and NaN among them.  None of these is equal to a [str], and
    the set is only ever asked whether it holds the [str] [name], so the
    strings in it are all that is kept here.  The status fields the
    script writes are text to pandas; a field equal to [success] is read
    as that [str]. *)
Definition read_downloaded_cities (E : env) (f : csv_file)
    : result (gset string) :=
  match f with
  | EmptyFile => Raise "No columns to parse from file"
  | Table fieldnames rows =>
      if decide ("status" ∈ fieldnames) then
        if decide ("city" ∈ fieldnames) then
          Ok (list_to_set
                (omap (λ r, read_str E (map city rows) (city r))
                   (filter (λ r, status r = "success") rows)))
        else Raise "'city'"
      else Raise "'status'"
  end.

Definition load_downloaded_cities (E : env) : M (gset string) :=
  λ w, (w, match csv w with
           | Some f => read_downloaded_cities E f
           | None => Ok ∅
           end).

(** Opening in append mode creates the file; the header goes in front
    of the row when the write position is 0.  The log is taken to be
    writable: a failing [open] or [writerow], which is outside the [try]
    and would end the run, is a fault of the environment that is not
    modelled. *)
Definition append_row (f : option csv_file) (r : record) : csv_file :=
  match f with
  | None | Some EmptyFile => Table header [r]
  | Some (Table fieldnames rows) => Table fieldnames (rows ++ [r])
  end.

Definition append_csv (r : record) : M unit :=
  λ w, ({| files := files w; csv := Some (append_row (csv w) r);
           trace := trace w |}, Ok tt).

(** The rows of the log, as written. *)
Definition csv_rows (f : option csv_file) : list record :=
  match f with
  | Some (Table _ rows) => rows
  | _ => []
  end.

(** [name] comes back from the city column of [rows] as the [str] it
    was written as. *)
Definition reads_back (E : env) (rows : list record) (name : string) : Prop :=
  text_column E (map city rows) = true ∧ pd_kind E name ≠ Missing.

(** The rows that record a success of [name]. *)
Definition success_rows (name : string) (rows : list record) : list record :=
  filter (λ r, city r = name ∧ status r = "success") rows.

(** All rows of [name]. *)
Definition rows_of (name : string) (rows : list record) : list record :=
  filter (λ r, city r = name) rows.

(** No city has more than one success row. *)
Definition success_once (rows : list record) : Prop :=
  ∀ name, (length (success_rows name rows) ≤ 1)%nat.

(** *** One city *)

Definition success_record (name : string) (G_main : graph) (area_km2 : Q)
    : record :=
  {| city := name; status := "success";
     nodes := Some (number_of_nodes G_main);
     edges := Some (number_of_edges G_main);
     area_km2 := area_km2 |}.

Definition failed_record (name e : string) (area_km2 : Q) : record :=
  {| city := name; status := "failed: " +:+ e;
     nodes := None; edges := None; area_km2 := area_km2 |}.

(** The body of the [try]. *)
Definition download_city (E : env) (name : string)
    (row_geometry : shape) (save_path : string) (area_km2 : Q)
    : M record :=
  geom <~ lift (get_city_polygon (area E) (simplify E)
                  row_geometry simplify_tolerance);;
  G <~ ox_graph_from_polygon E name geom network_type;;
  let G := to_undirected E G in
  G_main <~ lift (largest_connected_component G);;
  ox_save_graphml E G_main save_path;;
  ret (success_record name G_main area_km2).

(** The call of [ox.save_graphml] that an attempt makes, if it gets that
    far: the component handed over and what the writer does with it. *)
Definition save_call (E : env) (name : string) (row_geometry : shape)
    (save_path : string) (w : world) : option (graph * save_outcome) :=
  match get_city_polygon (area E) (simplify E)
          row_geometry simplify_tolerance with
  | Ok geom =>
      match graph_from_polygon E (trace w) geom network_type with
      | Ok G =>
          match largest_connected_component (to_undirected E G) with
          | Ok G_main =>
              Some (G_main,
                    save_graphml E
                      (trace w ++ [EvDownload name geom network_type])
                      G_main save_path)
          | Raise _ => None
          end
      | Raise _ => None
      end
  | Raise _ => None
  end.

(** The row written for an attempt that returned or raised. *)
Definition outcome_record (name : string) (area_km2 : Q)
    (outcome : result record) : record :=
  match outcome with
  | Ok r => r
  | Raise e => failed_record name e area_km2
  end.

(** One turn of the main loop. *)
Definition iteration (E : env) (downloaded_cities : gset string)
    (china_cities_proj : list shape)
    (idx : nat) (row : city_row) : M unit :=
  let name := strip (name row) in
  let save_path := save_path_of name in
  on_disk <~ os_path_exists save_path;;
  if bool_decide (name ∈ downloaded_cities) || on_disk then ret tt
  else
    geom_proj <~ iloc china_cities_proj idx;;
    let area_km2 := (area E geom_proj / 1000000)%Q in
    record <~ try_except
                (download_city E name (geometry row) save_path area_km2)
                (λ e, ret (failed_record name e area_km2));;
    append_csv record;;
    time_sleep 3.

Fixpoint main_loop (E : env) (downloaded_cities : gset string)
    (china_cities_proj : list shape)
    (rows : list (nat * city_row)) : M unit :=
  match rows with
  | [] => ret tt
  | (idx, row) :: rest =>
      iteration E downloaded_cities china_cities_proj idx row;;
      main_loop E downloaded_cities china_cities_proj rest
  end.

(** [df.iterrows()] *)
Definition iterrows (df : list city_row) : list (nat * city_row) :=
  imap pair df.

(** The whole script on the boundary rows [china_cities]. *)
Definition script (E : env) (china_cities : list city_row) : M unit :=
  let china_cities_proj :=
    map (λ row, to_crs E (geometry row) 3857) china_cities in
  downloaded_cities <~ load_downloaded_cities E;;
  main_loop E downloaded_cities china_cities_proj (iterrows china_cities).

(** *** Reading a trace and a log *)

Definition is_download (ev : event) : bool :=
  match ev with EvDownload _ _ _ => true | _ => false end.

Definition is_save (ev : event) : bool :=
  match ev with EvSave _ _ => true | _ => false end.

Definition is_sleep (ev : event) : bool :=
  match ev with EvSleep seconds => Nat.eqb seconds 3 | _ => false end.

Definition count_events (f : event → bool) (evs : list event) : nat :=
  length (List.filter f evs).

(** The provider is given its rest: no download while the one before
    ([pending]) has not been followed by a sleep of 3 seconds or more,
    and none left pending at the end. *)
Fixpoint delayed (pending : bool) (evs : list event) : bool :=
  match evs with
  | [] => negb pending
  | EvDownload _ _ _ :: rest => negb pending && delayed true rest
  | EvSleep seconds :: rest =>
      delayed (pending && negb (Nat.leb 3 seconds)) rest
  | EvSave _ _ :: rest => delayed pending rest
  end.

(** The header line of the log once it has a row. *)
Definition fieldnames_of (f : option csv_file) : list string :=
  match f with
  | Some (Table fieldnames _) => fieldnames
  | _ => header
  end.

End Script.

(** ** Sample inputs *)

Module Examples.
Import Graph Geometry Script.

(** Components [{1,2,3}], [{4,..,8}] and [{9,10}]. *)
Definition sizes352 : graph :=
  mkGraph [1; 2; 3; 4; 5; 6; 7; 8; 9; 10]
    [(1, 2); (2, 3); (4, 5); (5, 6); (6, 7); (7, 8); (8, 4); (9, 10)].

Definition no_nodes : graph := mkGraph [] [].

(** The largest component of [sizes352]. *)
Definition ring5 : graph :=
  mkGraph [4; 5; 6; 7; 8] [(4, 5); (5, 6); (6, 7); (7, 8); (8, 4)].

(** Two components of two nodes, and a node on its own. *)
Definition two_pairs : graph := mkGraph [1; 2; 3; 4; 5] [(1, 2); (3, 4)].

Definition rect (x y width height : Z) : polygon :=
  {| exterior := [(x # 1, y # 1); (x + width # 1, y # 1);
                  (x + width # 1, y + height # 1); (x # 1, y + height # 1)];
     interiors := [] |}.

(** Twice the signed area of a ring, by the shoelace formula. *)
Fixpoint shoelace (first : Q * Q) (ring : list (Q * Q)) : Q :=
  match ring with
  | [] => 0%Q
  | p :: rest =>
      let q := match rest with [] => first | q :: _ => q end in
      (p.1 * q.2 - q.1 * p.2 + shoelace first rest)%Q
  end.

Definition ring_area (ring : list (Q * Q)) : Q :=
  match ring with
  | [] => 0%Q
  | p :: _ => (Qabs (shoelace p ring) / 2)%Q
  end.

Definition polygon_area (p : polygon) : Q :=
  (ring_area (exterior p) - fold_right Qplus 0 (map ring_area (interiors p)))%Q.

Definition plane_area (g : shape) : Q :=
  match g with
  | Polygon p => polygon_area p
  | MultiPolygon geoms => fold_right Qplus 0%Q (map polygon_area geoms)
  end.

(** A simplification that finds nothing to remove. *)
Definition keep_all (g : shape) (tolerance : Q) (preserve_topology : bool)
    : shape := g.

Definition part10 : polygon := rect 0 0 5 2.
Definition part50 : polygon := rect 10 0 5 10.
Definition part2 : polygon := rect 20 0 1 2.
Definition islands : shape := MultiPolygon [part10; part50; part2].

(** Two parts of area 10, the larger ones of a group of three. *)
Definition twins : shape := MultiPolygon [part2; part10; rect 30 0 2 5].

(** A sample of the type inference of [pd.read_csv]: the default markers
    of a missing value, numbers in plain decimal notation, the spellings
    of the booleans; everything else is text. *)
Definition na_values : list string :=
  [""; "#N/A"; "#N/A N/A"; "#NA"; "-1.#IND"; "-1.#QNAN"; "-NaN"; "-nan";
   "1.#IND"; "1.#QNAN"; "<NA>"; "N/A"; "NA"; "NULL"; "NaN"; "None";
   "n/a"; "nan"; "null"].

Definition is_digit (a : ascii) : bool :=
  let n := nat_of_ascii a in Nat.leb 48 n && Nat.leb n 57.

Fixpoint decimal (point_seen digit_seen : bool) (s : string) : bool :=
  match s with
  | EmptyString => digit_seen
  | String a s' =>
      if is_digit a then decimal point_seen true s'
      else if bool_decide (a = "."%char) && negb point_seen
           then decimal true digit_seen s'
           else false
  end.

Definition is_number (s : string) : bool :=
  match s with
  | EmptyString => false
  | String a s' =>
      if bool_decide (a = "-"%char) || bool_decide (a = "+"%char)
      then decimal false false s' else decimal false false s
  end.

Definition pandas_kind (s : string) : field_kind :=
  if bool_decide (s ∈ na_values) then Missing
  else if is_number s then Number
  else if bool_decide (s ∈ ["True"; "TRUE"; "true"; "False"; "FALSE"; "false"])
       then Boolean
       else Text.

(** A provider that answers every request with the same small network:
    a triangle with a spur, and a separate street. *)
Definition road_net : digraph :=
  {| d_nodes := [1; 2; 3; 4; 5; 6];
     d_arcs := [(1, 2, 0); (2, 3, 0); (3, 1, 0); (3, 4, 0); (5, 6, 0)] |}.

Definition lone_node : digraph := {| d_nodes := [7]; d_arcs := [] |}.

Definition arcs_as_edges (d : digraph) : graph :=
  mkGraph (d_nodes d) (map (λ a, (a.1.1, a.1.2)) (d_arcs d)).

Definition env_ok : env :=
  {| area := plane_area;
     simplify := keep_all;
     to_crs := λ g _, g;
     graph_from_polygon := λ _ _ _, Ok road_net;
     to_undirected := arcs_as_edges;
     save_graphml := λ _ _ _, Saved;
     pd_kind := pandas_kind |}.

(** The provider is down. *)
Definition env_timeout : env :=
  {| area := plane_area;
     simplify := keep_all;
     to_crs := λ g _, g;
     graph_from_polygon := λ _ _ _, Raise "timeout";
     to_undirected := arcs_as_edges;
     save_graphml := λ _ _ _, Saved;
     pd_kind := pandas_kind |}.

(** The disk fills up while the graph is written. *)
Definition env_disk_full : env :=
  {| area := plane_area;
     simplify := keep_all;
     to_crs := λ g _, g;
     graph_from_polygon := λ _ _ _, Ok road_net;
     to_undirected := arcs_as_edges;
     save_graphml := λ _ _ _, SaveError "No space left on device" true;
     pd_kind := pandas_kind |}.

(** The polygon holds a single junction and no street. *)
Definition env_lone_node : env :=
  {| area := plane_area;
     simplify := keep_all;
     to_crs := λ g _, g;
     graph_from_polygon := λ _ _ _, Ok lone_node;
     to_undirected := arcs_as_edges;
     save_graphml := λ _ _ _, Saved;
     pd_kind := pandas_kind |}.

Definition xian : city_row := {| name := "Xian"; geometry := islands |}.
Definition lhasa : city_row :=
  {| name := " Lhasa "; geometry := Polygon part50 |}.

(** A city whose name column holds the number 123. *)
Definition city123 : city_row :=
  {| name := "123"; geometry := Polygon part50 |}.

(** Nothing on disk yet. *)
Definition fresh : world := {| files := ∅; csv := None; trace := [] |}.

(** A log with one failed and one successful city, no file on disk. *)
Definition resumed : world :=
  {| files := ∅;
     csv := Some (Table header
              [failed_record "Xian" "timeout" 74;
               {| city := "Lhasa"; status := "success"; nodes := Some 4;
                  edges := Some 4; area_km2 := 50 |}]);
     trace := [] |}.

(** The log says that city 123 is done; its file has been removed. *)
Definition numbered : world :=
  {| files := ∅;
     csv := Some (Table header
              [{| city := "123"; status := "success"; nodes := Some 4;
                  edges := Some 4; area_km2 := 50 |}]);
     trace := [] |}.

(** The file of Xian is on disk, the log is not. *)
Definition file_only : world :=
  {| files := {[ save_path_of "Xian" := GraphML no_nodes ]};
     csv := None; trace := [] |}.

End Examples.

(** * Facts about [max] *)

Section max_facts.
Context {A K : Type} (ltb : K → K → bool) (le : K → K → Prop) (key : A → K).
Hypothesis le_refl : ∀ a, le a a.
Hypothesis le_trans : ∀ a b c, le a b → le b c → le a c.
Hypothesis ltb_true : ∀ a b, ltb a b = true → le a b.
Hypothesis ltb_false : ∀ a b, ltb a b = false → le b a.

Lemma max_from_elem best xs : max_from ltb key best xs ∈ best :: xs.
Proof.
  revert best. induction xs as [|a xs IH]; intros best; simpl; [by left|].
  specialize (IH (if ltb (key best) (key a) then a else best)).
  apply elem_of_cons in IH as [->|IH].
  - destruct (ltb (key best) (key a)); [right|]; by left.
  - by do 2 right.
Qed.

Lemma max_from_upper best xs x :
  x ∈ best :: xs → le (key x) (key (max_from ltb key best xs)).
Proof.
  revert best x. induction xs as [|a xs IH]; intros best x; simpl.
  - intros [->|Hx]%elem_of_cons; [done|inversion Hx].
  - set (best' := if ltb (key best) (key a) then a else best).
    assert (le (key best) (key best') ∧ le (key a) (key best')) as [Hb Ha].
    { unfold best'. destruct (ltb (key best) (key a)) eqn:Hlt; auto. }
    intros [->|[->|Hx]%elem_of_cons]%elem_of_cons.
    + eapply le_trans; [exact Hb|]. apply IH. by left.
    + eapply le_trans; [exact Ha|]. apply IH. by left.
    + apply IH. by right.
Qed.

Lemma py_max_spec xs :
  xs ≠ [] →
  ∃ m, py_max ltb key xs = Ok m ∧ m ∈ xs ∧ ∀ x, x ∈ xs → le (key x) (key m).
Proof.
  destruct xs as [|x xs]; [done|]. intros _. simpl. eexists. split; [done|].
  split; [apply max_from_elem|]. intros y. apply max_from_upper.
Qed.

End max_facts.

Lemma py_max_length (xs : list (list nat)) :
  xs ≠ [] →
  ∃ m, py_max Nat.ltb length xs = Ok m ∧ m ∈ xs ∧
       ∀ x, x ∈ xs → (length x ≤ length m)%nat.
Proof.
  apply (py_max_spec Nat.ltb (λ a b : nat, (a ≤ b)%nat)); auto with lia.
  - intros a b Hab. apply Nat.ltb_lt in Hab. lia.
  - intros a b Hab. apply Nat.ltb_ge in Hab. lia.
Qed.

(** * Facts about the geometry reducer *)

Section geometry_facts.
Import Geometry Script.
Variable area : shape → Q.
Variable simplify : shape → Q → bool → shape.

Lemma Qltb_true a b : Qltb a b = true → (a <= b)%Q.
Proof.
  unfold Qltb. intros H. apply negb_true_iff in H.
  apply Qlt_le_weak, Qnot_le_lt. intros Hle.
  apply Qle_bool_iff in Hle. congruence.
Qed.

Lemma Qltb_false a b : Qltb a b = false → (b <= a)%Q.
Proof.
  unfold Qltb. intros H. apply negb_false_iff in H. by apply Qle_bool_iff.
Qed.

Lemma py_max_area (gs : list shape) :
  gs ≠ [] →
  ∃ m, py_max Qltb area gs = Ok m ∧ m ∈ gs ∧
       ∀ g, g ∈ gs → (area g <= area m)%Q.
Proof.
  apply (py_max_spec Qltb Qle).
  - apply Qle_refl.
  - apply Qle_trans.
  - apply Qltb_true.
  - apply Qltb_false.
Qed.

Lemma get_city_polygon_largest geoms :
  geoms ≠ [] →
  ∃ p, p ∈ geoms ∧
    (∀ q, q ∈ geoms → (area (Polygon q) <= area (Polygon p))%Q) ∧
    get_city_polygon area simplify (MultiPolygon geoms) simplify_tolerance
    = Ok (simplify (Polygon p) simplify_tolerance true).
Proof.
  intros Hne. destruct (py_max_area (map Polygon geoms)) as (m & Hm & Hin & Hmax).
  { by destruct geoms. }
  apply list_elem_of_fmap in Hin as (p & -> & Hp).
  exists p. split; [done|]. split.
  - intros q Hq. apply Hmax. by apply list_elem_of_fmap_2.
  - unfold get_city_polygon. by rewrite Hm.
Qed.

(** C4: [get_city_polygon] with the fixed tolerance simplifies, with
    topology preserved, the polygon it is given, and of a multi-polygon
    the constituent of largest area (a constituent no other exceeds);
    a constituent strictly larger than all others is the one chosen, so
    of parts of area 10, 50 and 2 the result is the simplified part of
    area 50.  A multi-polygon without parts has no largest part:
    [max] raises. *)
Theorem get_city_polygon_spec :
  (∀ p, get_city_polygon area simplify (Polygon p) simplify_tolerance
        = Ok (simplify (Polygon p) simplify_tolerance true)) ∧
  (∀ geoms, geoms ≠ [] →
     ∃ p, p ∈ geoms ∧
       (∀ q, q ∈ geoms → (area (Polygon q) <= area (Polygon p))%Q) ∧
       get_city_polygon area simplify (MultiPolygon geoms) simplify_tolerance
       = Ok (simplify (Polygon p) simplify_tolerance true)) ∧
  (∀ geoms b, b ∈ geoms →
     (∀ q, q ∈ geoms → q = b ∨ (area (Polygon q) < area (Polygon b))%Q) →
     get_city_polygon area simplify (MultiPolygon geoms) simplify_tolerance
     = Ok (simplify (Polygon b) simplify_tolerance true)) ∧
  (∀ a b c, (area (Polygon a) == 10)%Q → (area (Polygon b) == 50)%Q →
     (area (Polygon c) == 2)%Q →
     get_city_polygon area simplify (MultiPolygon [a; b; c]) simplify_tolerance
     = Ok (simplify (Polygon b) simplify_tolerance true)) ∧
  get_city_polygon area simplify (MultiPolygon []) simplify_tolerance
  = Raise max_empty_msg.
Proof.
  assert (∀ geoms b, b ∈ geoms →
     (∀ q, q ∈ geoms → q = b ∨ (area (Polygon q) < area (Polygon b))%Q) →
     get_city_polygon area simplify (MultiPolygon geoms) simplify_tolerance
     = Ok (simplify (Polygon b) simplify_tolerance true)) as Hstrict.
  { intros geoms b Hb Hlt.
    destruct (get_city_polygon_largest geoms) as (p & Hp & Hmax & ->).
    { intros ->. inversion Hb. }
    destruct (Hlt p Hp) as [->|Hpb]; [done|].
    specialize (Hmax b Hb). exfalso. by apply (Qlt_not_le _ _ Hpb). }
  split_and!; auto.
  - apply get_city_polygon_largest.
  - intros a b c Ha Hb Hc. apply Hstrict; [by right; left|].
    intros q [->|[->|[->|Hq]%elem_of_cons]%elem_of_cons]%elem_of_cons.
    + right. by rewrite Ha, Hb.
    + by left.
    + right. by rewrite Hc, Hb.
    + inversion Hq.
Qed.

End geometry_facts.

(** * Facts about the graph reduction *)

Section graph_facts.
Import Graph.
Implicit Types (G : graph) (u v w x y : nat) (c seen next level : list nat).

Lemma elem_of_first_seen seen l x :
  x ∈ first_seen seen l ↔ x ∈ l ∧ x ∉ seen.
Proof.
  revert seen. induction l as [|a l IH]; intros seen; simpl.
  - rewrite elem_of_nil. tauto.
  - destruct (decide (a ∈ seen)) as [Ha|Ha].
    + rewrite IH, elem_of_cons. split; [tauto|].
      intros [[->|?] ?]; tauto.
    + rewrite elem_of_cons, IH, elem_of_cons, elem_of_cons.
      destruct (decide (x = a)) as [->|Hne]; intuition congruence.
Qed.

Lemma NoDup_first_seen seen l : NoDup (first_seen seen l).
Proof.
  revert seen. induction l as [|a l IH]; intros seen; simpl.
  - constructor.
  - destruct (decide (a ∈ seen)); [apply IH|].
    constructor; [|apply IH].
    rewrite elem_of_first_seen, elem_of_cons. tauto.
Qed.

Lemma elem_of_endpoints (es : list (nat * nat)) x :
  x ∈ endpoints es ↔ ∃ e, e ∈ es ∧ (x = e.1 ∨ x = e.2).
Proof.
  unfold endpoints. rewrite list_elem_of_In, in_flat_map.
  split; intros (e & He & Hx); exists e.
  - apply list_elem_of_In in He. simpl in Hx. intuition congruence.
  - rewrite <- list_elem_of_In. simpl. intuition congruence.
Qed.

Lemma elem_of_nodes G x :
  x ∈ nodes G ↔ x ∈ g_nodes G ∨ x ∈ endpoints (g_edges G).
Proof.
  unfold nodes. rewrite elem_of_first_seen, elem_of_app, elem_of_nil. tauto.
Qed.

Lemma NoDup_nodes G : NoDup (nodes G).
Proof. apply NoDup_first_seen. Qed.

Lemma elem_of_neighbors G x y : y ∈ neighbors G x ↔ adjacent G x y.
Proof.
  unfold neighbors, adjacent. rewrite list_elem_of_In, in_flat_map. split.
  - intros ([a b] & He & Hy). apply list_elem_of_In in He. simpl in Hy.
    apply in_app_or in Hy as [Hy|Hy].
    + destruct (decide (a = x)) as [->|]; simpl in Hy; [|tauto].
      destruct Hy as [->|[]]. by left.
    + destruct (decide (b = x)) as [->|]; simpl in Hy; [|tauto].
      destruct Hy as [->|[]]. by right.
  - intros [He|He]; [exists (x, y)|exists (y, x)];
      (split; [by apply list_elem_of_In|]); simpl; apply in_or_app.
    + left. rewrite decide_True by done. by left.
    + right. rewrite decide_True by done. by left.
Qed.

Lemma adjacent_sym G x y : adjacent G x y → adjacent G y x.
Proof. unfold adjacent. tauto. Qed.

Lemma adjacent_nodes G x y : adjacent G x y → x ∈ nodes G ∧ y ∈ nodes G.
Proof.
  intros [He|He]; split; apply elem_of_nodes; right;
    apply elem_of_endpoints; eexists; (split; [exact He|]); simpl; tauto.
Qed.

Lemma connected_sym G x y : connected G x y → connected G y x.
Proof.
  induction 1 as [|x y z Hxy _ IH]; [constructor|].
  eapply rtc_r; [exact IH|]. by apply adjacent_sym.
Qed.

Lemma visit_spec ws seen next seen' next' :
  visit ws seen next = (seen', next') →
  ∃ added, seen' = seen ++ added ∧ next' = next ++ added ∧ NoDup added ∧
    (∀ x, x ∈ added → x ∈ ws ∧ x ∉ seen) ∧
    (∀ w, w ∈ ws → w ∈ seen ∨ w ∈ added).
Proof.
  revert seen next. induction ws as [|w ws IH]; simpl; intros seen next H.
  - inversion H; subst. exists []. rewrite !app_nil_r.
    split_and!; [done|done|constructor|..]; intros x Hx; inversion Hx.
  - destruct (decide (w ∈ seen)) as [Hw|Hw];
      destruct (IH _ _ H) as (added & -> & -> & Hnd & Hin & Hcov).
    + exists added. split_and!; auto.
      * intros x Hx. destruct (Hin x Hx). split; [by right|done].
      * intros w' [->|Hw']%elem_of_cons; auto.
    + exists (w :: added). rewrite <- !app_assoc. split_and!; auto.
      * constructor; [|done]. intros Hwa. destruct (Hin _ Hwa) as [_ Hn].
        apply Hn, elem_of_app. right. by left.
      * intros x [->|Hx]%elem_of_cons; [split; [by left|done]|].
        destruct (Hin x Hx) as [? Hn]. split; [by right|].
        intros ?. apply Hn, elem_of_app. by left.
      * intros w' [->|Hw']%elem_of_cons; [right; by left|].
        destruct (Hcov w' Hw') as [Hs|Ha]; [|right; by right].
        apply elem_of_app in Hs as [?|Hs]; [by left|].
        apply list_elem_of_singleton in Hs as ->. right. by left.
Qed.

Lemma scan_level_spec G level seen next seen' next' :
  scan_level G level seen next = (seen', next') →
  ∃ added, seen' = seen ++ added ∧ next' = next ++ added ∧ NoDup added ∧
    (∀ x, x ∈ added → (x ∉ seen) ∧ (∃ v, v ∈ level ∧ adjacent G v x)) ∧
    (∀ v w, v ∈ level → adjacent G v w → w ∈ seen ++ added).
Proof.
  revert seen next. induction level as [|v level IH]; simpl; intros seen next H.
  - inversion H; subst. exists []. rewrite !app_nil_r.
    split_and!; [done|done|constructor|..].
    + intros x Hx. inversion Hx.
    + intros v w Hv. inversion Hv.
  - destruct (visit (neighbors G v) seen next) as [s1 n1] eqn:Hvisit.
    apply visit_spec in Hvisit as (a1 & -> & -> & Hnd1 & Hin1 & Hcov1).
    apply IH in H as (a2 & -> & -> & Hnd2 & Hin2 & Hcov2).
    exists (a1 ++ a2). rewrite !app_assoc. split_and!; auto.
    + apply NoDup_app. split_and!; auto.
      intros x Hx1 Hx2. destruct (Hin2 x Hx2) as [Hn _].
      apply Hn, elem_of_app. by right.
    + intros x [Hx|Hx]%elem_of_app.
      * destruct (Hin1 x Hx) as [Hnb ?]. split; [done|].
        exists v. split; [by left|]. by apply elem_of_neighbors.
      * destruct (Hin2 x Hx) as [Hn (v' & ? & ?)]. split.
        -- intros ?. apply Hn, elem_of_app. by left.
        -- exists v'. split; [by right|done].
    + intros v' w [->|Hv']%elem_of_cons Hadj.
      * apply elem_of_neighbors, Hcov1 in Hadj.
        rewrite !elem_of_app. tauto.
      * apply (Hcov2 v' w); auto.
Qed.

Lemma bfs_rounds_nil fuel G seen : bfs_rounds fuel G seen [] = seen.
Proof. by destruct fuel. Qed.

(** One round of the search keeps its invariant; what it adds is the
    next level. *)
Lemma scan_level_inv G s seen level seen' next' :
  search_inv G s seen level →
  scan_level G level seen [] = (seen', next') →
  ∃ added, seen' = seen ++ added ∧ next' = added ∧
    search_inv G s (seen ++ added) added.
Proof.
  intros (Hnd & Hlevel & Hreach & Hsub & Hclosed) Hscan.
  apply scan_level_spec in Hscan as (added & -> & -> & Hnda & Hin & Hcov).
  exists added. split; [done|]. split; [done|]. split_and!.
  - apply NoDup_app. split_and!; auto.
    intros x Hx Hxa. destruct (Hin x Hxa) as [Hn _]. by apply Hn.
  - intros x Hx. apply elem_of_app. by right.
  - intros x [Hx|Hx]%elem_of_app; [auto|].
    destruct (Hin x Hx) as [_ (u & Hu & Hadj)].
    eapply rtc_r; [|exact Hadj]. apply Hreach, Hlevel, Hu.
  - intros x [Hx|Hx]%elem_of_app; [auto|].
    destruct (Hin x Hx) as [_ (u & Hu & Hadj)].
    by apply adjacent_nodes in Hadj as [_ ?].
  - intros x y [Hx|Hx]%elem_of_app Hxa Hadj; [|done].
    destruct (decide (x ∈ level)) as [Hl|Hl].
    + by apply (Hcov x y).
    + apply elem_of_app. left. by apply (Hclosed x y).
Qed.

Lemma search_inv_length G s seen level :
  search_inv G s seen level → (length seen ≤ length (nodes G))%nat.
Proof.
  intros (Hnd & _ & _ & Hsub & _). apply submseteq_length, NoDup_submseteq; auto.
Qed.

(** With a round left for every node not yet seen, the search runs until
    a level reaches nothing new. *)
Lemma bfs_rounds_spec G s fuel seen level :
  search_inv G s seen level →
  (length (nodes G) < fuel + length seen)%nat →
  search_done G s (bfs_rounds fuel G seen level) ∧
  ∀ x, x ∈ seen → x ∈ bfs_rounds fuel G seen level.
Proof.
  revert seen level. induction fuel as [|fuel IH]; intros seen level Hinv Hfuel.
  - apply search_inv_length in Hinv. lia.
  - destruct level as [|v level].
    + simpl. destruct Hinv as (Hnd & _ & Hreach & Hsub & Hclosed).
      split; [|done]. split_and!; auto.
      intros x y Hx. apply Hclosed; [done|]. apply not_elem_of_nil.
    + cbn [bfs_rounds].
      destruct (scan_level G (v :: level) seen []) as [seen' next'] eqn:Hscan.
      apply (scan_level_inv G s) in Hscan as (added & -> & -> & Hinv'); [|done].
      destruct added as [|a added].
      * rewrite bfs_rounds_nil. rewrite app_nil_r in *.
        destruct Hinv' as (Hnd' & _ & Hreach' & Hsub' & Hclosed').
        split; [|done]. split_and!; auto.
        intros x y Hx. apply Hclosed'; [done|]. apply not_elem_of_nil.
      * destruct (IH _ _ Hinv') as [Hdone Hkeep].
        { rewrite length_app. simpl. lia. }
        split; [done|]. intros x Hx. apply Hkeep, elem_of_app. by left.
Qed.

(** More rounds change nothing: the bound on the rounds cuts no search
    short, the loop ends on an empty level. *)
Lemma bfs_rounds_enough G s fuel seen level :
  search_inv G s seen level →
  (length (nodes G) < fuel + length seen)%nat →
  bfs_rounds (S fuel) G seen level = bfs_rounds fuel G seen level.
Proof.
  revert seen level. induction fuel as [|fuel IH]; intros seen level Hinv Hfuel.
  - apply search_inv_length in Hinv. lia.
  - destruct level as [|v level]; [done|].
    change (bfs_rounds (S (S fuel)) G seen (v :: level))
      with (let '(seen', next') := scan_level G (v :: level) seen [] in
            bfs_rounds (S fuel) G seen' next').
    change (bfs_rounds (S fuel) G seen (v :: level))
      with (let '(seen', next') := scan_level G (v :: level) seen [] in
            bfs_rounds fuel G seen' next').
    destruct (scan_level G (v :: level) seen []) as [seen' next'] eqn:Hscan.
    apply (scan_level_inv G s) in Hscan as (added & -> & -> & Hinv'); [|done].
    destruct added as [|a added]; [by rewrite !bfs_rounds_nil|].
    apply IH; [done|]. rewrite length_app. simpl. lia.
Qed.

Lemma plain_bfs_fuel G s k :
  s ∈ nodes G →
  bfs_rounds (k + S (number_of_nodes G)) G [s] [s] = plain_bfs G s.
Proof.
  intros Hs. unfold plain_bfs, number_of_nodes. induction k as [|k IH]; [done|].
  rewrite <- IH. apply (bfs_rounds_enough G s); [|simpl; lia].
  split_and!.
  - apply NoDup_singleton.
  - done.
  - intros x ->%list_elem_of_singleton. constructor.
  - by intros x ->%list_elem_of_singleton.
  - intros x y Hx Hnx. done.
Qed.

Lemma plain_bfs_spec G s :
  s ∈ nodes G → search_done G s (plain_bfs G s) ∧ s ∈ plain_bfs G s.
Proof.
  intros Hs. unfold plain_bfs, number_of_nodes.
  destruct (bfs_rounds_spec G s (S (length (nodes G))) [s] [s]) as [Hd Hk].
  - split_and!.
    + apply NoDup_singleton.
    + done.
    + intros x ->%list_elem_of_singleton. constructor.
    + by intros x ->%list_elem_of_singleton.
    + intros x y Hx Hnx. done.
  - simpl. lia.
  - split; [done|]. apply Hk. by left.
Qed.

(** The loop of [_plain_bfs] has run to its end: the set returned is
    closed under adjacency. *)
Lemma plain_bfs_closed G s x y :
  s ∈ nodes G → x ∈ plain_bfs G s → adjacent G x y → y ∈ plain_bfs G s.
Proof.
  intros Hs Hx Hadj.
  destruct (plain_bfs_spec G s Hs) as [(_ & _ & _ & Hclosed) _]. eauto.
Qed.

Lemma search_done_component G s R :
  s ∈ R → search_done G s R → is_component G R.
Proof.
  intros Hs (Hnd & Hreach & Hsub & Hclosed). split_and!; auto.
  - intros ->. inversion Hs.
  - intros u v Hu. split.
    + intros Hv. etrans; [apply connected_sym, Hreach, Hu|]. by apply Hreach.
    + intros Huv. induction Huv as [|x y z Hxy _ IH]; [done|].
      apply IH. by apply (Hclosed x y).
Qed.

Lemma plain_bfs_component G s :
  s ∈ nodes G → is_component G (plain_bfs G s).
Proof.
  intros Hs. destruct (plain_bfs_spec G s Hs) as [Hd Hin].
  by apply (search_done_component G s).
Qed.

Lemma component_same_elements G c c' u :
  is_component G c → is_component G c' → u ∈ c → u ∈ c' →
  ∀ v, v ∈ c ↔ v ∈ c'.
Proof.
  intros (_ & _ & _ & Hc) (_ & _ & _ & Hc') Hu Hu' v.
  rewrite (Hc u v Hu), (Hc' u v Hu'). done.
Qed.

Lemma component_same_length G c c' u :
  is_component G c → is_component G c' → u ∈ c → u ∈ c' →
  length c = length c'.
Proof.
  intros Hc Hc' Hu Hu'. apply Permutation_length, NoDup_Permutation.
  - apply Hc.
  - apply Hc'.
  - by apply (component_same_elements G c c' u).
Qed.

Lemma components_from_component G vs seen c :
  (∀ v, v ∈ vs → v ∈ nodes G) →
  c ∈ components_from G vs seen → is_component G c.
Proof.
  revert seen. induction vs as [|v vs IH]; simpl; intros seen Hvs Hc.
  - inversion Hc.
  - assert (∀ v, v ∈ vs → v ∈ nodes G) by (intros; apply Hvs; by right).
    destruct (decide (v ∈ seen)); [by eapply IH|].
    apply elem_of_cons in Hc as [->|Hc]; [|by eapply IH].
    apply plain_bfs_component, Hvs. by left.
Qed.

Lemma components_from_cover G vs seen v :
  (∀ v, v ∈ vs → v ∈ nodes G) → v ∈ vs →
  v ∈ seen ∨ ∃ c, c ∈ components_from G vs seen ∧ v ∈ c.
Proof.
  revert seen. induction vs as [|a vs IH]; simpl; intros seen Hvs Hv.
  - inversion Hv.
  - assert (∀ v, v ∈ vs → v ∈ nodes G) as Hvs' by (intros; apply Hvs; by right).
    assert (a ∈ nodes G) as Ha by (apply Hvs; by left).
    destruct (decide (a ∈ seen)) as [Has|Has].
    + apply elem_of_cons in Hv as [->|Hv]; [by left|]. by apply IH.
    + apply elem_of_cons in Hv as [->|Hv].
      * right. exists (plain_bfs G a). split; [by left|]. by apply plain_bfs_spec.
      * destruct (IH (seen ++ plain_bfs G a) Hvs' Hv) as [Hs|(c & Hc & Hvc)].
        -- apply elem_of_app in Hs as [Hs|Hs]; [by left|right].
           exists (plain_bfs G a). split; [by left|done].
        -- right. exists c. split; [by right|done].
Qed.

Lemma connected_components_component G c :
  c ∈ connected_components G → is_component G c.
Proof. by apply components_from_component. Qed.

Lemma connected_components_cover G v :
  v ∈ nodes G → ∃ c, c ∈ connected_components G ∧ v ∈ c.
Proof.
  intros Hv.
  destruct (components_from_cover G (nodes G) [] v) as [Hnil|?]; auto.
  inversion Hnil.
Qed.

Lemma connected_components_nil G :
  connected_components G = [] ↔ nodes G = [].
Proof.
  unfold connected_components. destruct (nodes G) as [|v vs]; simpl; [done|].
  done.
Qed.

Lemma subgraph_ext G c c' :
  (∀ v, v ∈ c ↔ v ∈ c') → subgraph G c = subgraph G c'.
Proof.
  intros Hcc. unfold subgraph. f_equal; apply list_filter_iff.
  - done.
  - intros e. by rewrite !Hcc.
Qed.

Lemma elem_of_nodes_subgraph G c v :
  (∀ u, u ∈ c → u ∈ nodes G) → v ∈ nodes (subgraph G c) ↔ v ∈ c.
Proof.
  intros Hsub. rewrite elem_of_nodes. simpl.
  rewrite list_elem_of_filter, elem_of_endpoints. split.
  - intros [[? _]|(e & He & Hv)]; [done|].
    apply list_elem_of_filter in He as [[? ?] _]. by destruct Hv as [->| ->].
  - intros Hv. left. auto.
Qed.

Lemma number_of_nodes_subgraph G c :
  is_component G c → number_of_nodes (subgraph G c) = length c.
Proof.
  intros Hc. unfold number_of_nodes.
  apply Permutation_length, NoDup_Permutation;
    [apply NoDup_nodes|apply Hc|].
  intros v. apply elem_of_nodes_subgraph, Hc.
Qed.

Lemma largest_is_component G :
  nodes G ≠ [] →
  ∃ c, largest_connected_component G = Ok (subgraph G c) ∧
       is_component G c ∧ ∀ c', is_component G c' → (length c' ≤ length c)%nat.
Proof.
  intros Hne. unfold largest_connected_component.
  destruct (py_max_length (connected_components G)) as (c & -> & Hc & Hmax).
  { by rewrite connected_components_nil. }
  exists c. split; [done|]. split; [by apply connected_components_component|].
  intros c' Hc'. destruct c' as [|u c0] eqn:Heq; [simpl; lia|]. rewrite <- Heq in *.
  assert (u ∈ c') as Hu by (rewrite Heq; by left).
  destruct (connected_components_cover G u) as (ci & Hci & Huci).
  { by apply Hc'. }
  rewrite (component_same_length G c' ci u); auto.
  by apply connected_components_component.
Qed.

(** What is saved has at least one node. *)
Lemma largest_has_nodes G G_main :
  largest_connected_component G = Ok G_main → (0 < number_of_nodes G_main)%nat.
Proof.
  intros Hlcc. destruct (decide (nodes G = [])) as [Hnil|Hne].
  - unfold largest_connected_component in Hlcc.
    apply connected_components_nil in Hnil. by rewrite Hnil in Hlcc.
  - destruct (largest_is_component G Hne) as (c & Hc & Hcomp & _).
    rewrite Hc in Hlcc. injection Hlcc as <-.
    rewrite number_of_nodes_subgraph by done.
    destruct Hcomp as (Hnil & _). destruct c; [done|simpl; lia].
Qed.

(** C2: on a graph with at least one node, [largest_connected_component]
    returns the subgraph induced by a connected component [c] that no
    component exceeds in size: its nodes are those of [c], its edges the
    edges of the graph between nodes of [c].  In particular, when the
    components of the graph have 3, 5 and 2 nodes, the result is the
    subgraph induced by the one with 5. *)
Theorem largest_connected_component_spec G :
  nodes G ≠ [] →
  (∃ c, largest_connected_component G = Ok (subgraph G c) ∧
        is_component G c ∧
        (∀ c', is_component G c' → (length c' ≤ length c)%nat) ∧
        (∀ v, v ∈ nodes (subgraph G c) ↔ v ∈ c) ∧
        number_of_nodes (subgraph G c) = length c ∧
        (∀ e, e ∈ g_edges (subgraph G c) ↔
              e ∈ g_edges G ∧ e.1 ∈ c ∧ e.2 ∈ c)) ∧
  (∀ c3 c5 c2,
     is_component G c3 → is_component G c5 → is_component G c2 →
     length c3 = 3%nat → length c5 = 5%nat → length c2 = 2%nat →
     (∀ v, v ∈ nodes G → v ∈ c3 ∨ v ∈ c5 ∨ v ∈ c2) →
     largest_connected_component G = Ok (subgraph G c5)).
Proof.
  intros Hne. destruct (largest_is_component G Hne) as (c & Hlcc & Hc & Hmax).
  assert (∀ v, v ∈ nodes (subgraph G c) ↔ v ∈ c) as Hnodes.
  { intros v. apply elem_of_nodes_subgraph, Hc. }
  split.
  - exists c. split_and!; auto.
    + by apply number_of_nodes_subgraph.
    + intros e. simpl. rewrite list_elem_of_filter. tauto.
  - intros c3 c5 c2 H3 H5 H2 L3 L5 L2 Hcover.
    rewrite Hlcc. f_equal. apply subgraph_ext.
    destruct c as [|u c0] eqn:Heq; [by destruct Hc|]. rewrite <- Heq in *.
    assert (u ∈ c) as Hu by (rewrite Heq; by left).
    pose proof (Hmax c5 H5) as Hle.
    destruct (Hcover u) as [Hu3|[Hu5|Hu2]].
    + by apply Hc.
    + rewrite (component_same_length G c c3 u) in Hle by done. lia.
    + by apply (component_same_elements G c c5 u).
    + rewrite (component_same_length G c c2 u) in Hle by done. lia.
Qed.

(** C9: [largest_connected_component] is defined exactly on the graphs
    with at least one node; on a graph without nodes the list of
    components is empty and [max] raises. *)
Theorem largest_connected_component_partial G :
  (nodes G = [] ↔ connected_components G = []) ∧
  (nodes G = [] ↔ largest_connected_component G = Raise max_empty_msg) ∧
  (nodes G ≠ [] ↔ ∃ G_main, largest_connected_component G = Ok G_main).
Proof.
  split; [by rewrite connected_components_nil|].
  destruct (decide (nodes G = [])) as [Hnil|Hne].
  - assert (largest_connected_component G = Raise max_empty_msg) as Hr.
    { unfold largest_connected_component.
      apply connected_components_nil in Hnil. by rewrite Hnil. }
    split; [done|]. split; [done|]. intros [Gm HGm]. congruence.
  - destruct (largest_is_component G Hne) as (c & Hlcc & _).
    split.
    + split; [intros ?; contradiction|congruence].
    + split; [eauto|done].
Qed.

End graph_facts.

(** * Facts about the main loop *)

Section script_facts.
Import Graph Geometry Script.
Implicit Types (E : env) (w : world) (D : gset string) (proj : list shape).
Implicit Types (row : city_row) (rows : list (nat * city_row)).

Lemma csv_rows_append f r : csv_rows (Some (append_row f r)) = csv_rows f ++ [r].
Proof. by destruct f as [[|cols rows]|]. Qed.

(** What an attempt leaves behind. *)
Lemma download_city_inv E name g path a w w1 rb :
  download_city E name g path a w = (w1, rb) →
  csv w1 = csv w ∧
  (∃ evs, trace w1 = trace w ++ evs ∧
     ∀ ev, ev ∈ evs →
       (∃ geom, ev = EvDownload name geom network_type) ∨
       (∃ G, ev = EvSave path G)) ∧
  match rb with
  | Ok r =>
      ∃ d G_main,
        largest_connected_component (to_undirected E d) = Ok G_main ∧
        r = success_record name G_main a ∧
        files w1 = <[path := GraphML G_main]> (files w) ∧
        EvSave path G_main ∈ trace w1
  | Raise e =>
      files w1 = files w ∨
      (files w1 = <[path := Truncated]> (files w) ∧
       ∃ t G_main, save_graphml E t G_main path = SaveError e true)
  end.
Proof.
  unfold download_city, mbind, lift, ret, ox_graph_from_polygon, ox_save_graphml.
  destruct (get_city_polygon _ _ g _) as [geom|e].
  2:{ intros [= <- <-]. split; [done|]. split; [|by left].
      exists []. rewrite app_nil_r. split; [done|]. intros ev Hev. inversion Hev. }
  destruct (graph_from_polygon E (trace w) geom network_type) as [d|e].
  2:{ intros [= <- <-]. split; [done|]. split; [|by left].
      eexists [_]. split; [done|]. intros ev ->%list_elem_of_singleton. eauto. }
  destruct (largest_connected_component (to_undirected E d)) as [Gm|e] eqn:Hlcc.
  2:{ intros [= <- <-]. split; [done|]. split; [|by left].
      eexists [_]. split; [done|]. intros ev ->%list_elem_of_singleton. eauto. }
  assert (∀ ev, ev ∈ [EvDownload name geom network_type; EvSave path Gm] →
            (∃ geom, ev = EvDownload name geom network_type) ∨
            (∃ G, ev = EvSave path G)) as Hevs.
  { intros ev [->|[->|Hev]%elem_of_cons]%elem_of_cons; eauto. inversion Hev. }
  destruct (save_graphml E _ Gm path) as [|e left_file] eqn:Hsave.
  - intros [= <- <-]. simpl. split; [done|]. split.
    + eexists. split; [|exact Hevs]. by rewrite <- app_assoc.
    + exists d, Gm. split_and!; auto.
      rewrite !elem_of_app. right. by left.
  - intros [= <- <-]. simpl. split; [done|]. split.
    + eexists. split; [|exact Hevs]. by rewrite <- app_assoc.
    + destruct left_file; [right|by left]. split; [done|]. eauto.
Qed.

(** Where an attempt ends: before the call of [ox.save_graphml], with
    nothing saved and the disk as it was, or in that call, whose outcome
    decides both the result and the file. *)
Lemma download_city_save E name g path a w w1 rb :
  download_city E name g path a w = (w1, rb) →
  ∃ evs, trace w1 = trace w ++ evs ∧
    match save_call E name g path w with
    | None =>
        (∃ e, rb = Raise e) ∧ (∀ p G, EvSave p G ∉ evs) ∧ files w1 = files w
    | Some (G_main, Saved) =>
        rb = Ok (success_record name G_main a) ∧ EvSave path G_main ∈ evs ∧
        files w1 = <[path := GraphML G_main]> (files w)
    | Some (G_main, SaveError e left_file) =>
        rb = Raise e ∧ EvSave path G_main ∈ evs ∧
        files w1 = if left_file then <[path := Truncated]> (files w)
                   else files w
    end.
Proof.
  unfold download_city, save_call, mbind, lift, ret, ox_graph_from_polygon,
    ox_save_graphml.
  destruct (get_city_polygon _ _ g _) as [geom|e].
  2:{ intros [= <- <-]. exists []. rewrite app_nil_r.
      split_and!; eauto. no_elem. }
  destruct (graph_from_polygon E (trace w) geom network_type) as [d|e].
  2:{ intros [= <- <-]. eexists [_]. split_and!; eauto.
      intros p G ?%list_elem_of_singleton. discriminate. }
  destruct (largest_connected_component (to_undirected E d)) as [Gm|e].
  2:{ intros [= <- <-]. eexists [_]. split_and!; eauto.
      intros p G ?%list_elem_of_singleton. discriminate. }
  cbn [trace log].
  destruct (save_graphml E _ Gm path) as [|e left_file];
    intros [= <- <-]; cbn [files trace log];
    exists [EvDownload name geom network_type; EvSave path Gm];
    rewrite <- app_assoc; (split; [done|]); split_and!; auto;
    right; left.
Qed.

Lemma failed_not_success e : "failed: " +:+ e ≠ "success".
Proof. discriminate. Qed.

Section one_turn.
Context E D proj (idx : nat) row.
Local Abbreviation name := (strip (Script.name row)).
Local Abbreviation save_path := (save_path_of (strip (Script.name row))).

Lemma iteration_skip w :
  name ∈ D ∨ is_Some (files w !! save_path) →
  iteration E D proj idx row w = (w, Ok tt).
Proof.
  intros Hskip. unfold iteration, mbind, os_path_exists.
  destruct Hskip as [Hd|Hf].
  - by rewrite (bool_decide_eq_true_2 _ Hd).
  - rewrite (bool_decide_eq_true_2 _ Hf). by rewrite orb_true_r.
Qed.

Lemma iteration_attempt w gp w1 outcome :
  name ∉ D → files w !! save_path = None → proj !! idx = Some gp →
  download_city E name (geometry row) save_path (area E gp / 1000000) w
  = (w1, outcome) →
  iteration E D proj idx row w
  = ({| files := files w1;
        csv := Some (append_row (csv w1)
                       (outcome_record name (area E gp / 1000000) outcome));
        trace := trace w1 ++ [EvSleep 3] |}, Ok tt).
Proof.
  intros Hd Hf Hgp Hdl.
  unfold iteration, mbind, os_path_exists, iloc, lift, try_except.
  rewrite (bool_decide_eq_false_2 _ Hd).
  rewrite bool_decide_eq_false_2 by (rewrite Hf; by intros [? ?]).
  simpl. rewrite Hgp, Hdl. by destruct outcome.
Qed.

(** A turn either leaves the world as it is (the city is skipped, or
    the projected frame has no row [idx]), or appends one row for the
    city and sleeps. *)
Lemma iteration_inv w w' r :
  iteration E D proj idx row w = (w', r) →
  (w' = w ∧ (r = Ok tt ↔ (name ∈ D ∨ is_Some (files w !! save_path)))
          ∧ (r ≠ Ok tt → proj !! idx = None)) ∨
  ((name ∉ D) ∧ files w !! save_path = None ∧ r = Ok tt ∧
   ∃ gp w1 outcome,
     proj !! idx = Some gp ∧
     download_city E name (geometry row) save_path (area E gp / 1000000) w
     = (w1, outcome) ∧
     w' = {| files := files w1;
             csv := Some (append_row (csv w1)
                            (outcome_record name (area E gp / 1000000) outcome));
             trace := trace w1 ++ [EvSleep 3] |}).
Proof.
  intros Hit.
  destruct (decide (name ∈ D ∨ is_Some (files w !! save_path))) as [Hskip|Hno].
  - rewrite iteration_skip in Hit by done. injection Hit as <- <-.
    left. split_and!; [done|tauto|done].
  - assert (name ∉ D) as Hd by tauto.
    assert (files w !! save_path = None) as Hf.
    { apply eq_None_not_Some. tauto. }
    destruct (proj !! idx) as [gp|] eqn:Hgp.
    + destruct (download_city E name (geometry row) save_path
                  (area E gp / 1000000) w) as [w1 outcome] eqn:Hdl.
      rewrite (iteration_attempt w gp w1 outcome) in Hit by done.
      injection Hit as <- <-. right. split_and!; auto.
      exists gp, w1, outcome. done.
    + left. revert Hit.
      unfold iteration, mbind, os_path_exists, iloc, lift.
      rewrite (bool_decide_eq_false_2 _ Hd).
      rewrite bool_decide_eq_false_2 by (rewrite Hf; by intros [? ?]).
      simpl. rewrite Hgp. intros [= <- <-]. split_and!; [done| |done].
      split; [done|tauto].
Qed.

End one_turn.

Lemma main_loop_cons E D proj idx row rest w :
  main_loop E D proj ((idx, row) :: rest) w
  = match iteration E D proj idx row w with
    | (w1, Ok _) => main_loop E D proj rest w1
    | (w1, Raise e) => (w1, Raise e)
    end.
Proof. reflexivity. Qed.

Section one_attempt.
Context E D proj (idx : nat) row (rest : list (nat * city_row)) w (gp : shape).
Local Abbreviation name := (strip (Script.name row)).
Local Abbreviation save_path := (save_path_of (strip (Script.name row))).
Local Abbreviation km2 := (area E gp / 1000000)%Q.
Hypothesis not_downloaded : name ∉ D.
Hypothesis not_on_disk : files w !! save_path = None.
Hypothesis projected : proj !! idx = Some gp.

(** C3, as the code has it: when the download, reduce and save sequence
    of a city raises, the exception is caught and exactly one row is
    appended for the city, with status "failed: " followed by the
    message and with empty node and edge fields; the loop goes on with
    the next city.  When the exception comes before the call of
    [ox.save_graphml], nothing is saved and the disk is as before, with
    no file for the city.  When it is that call that raises, the disk
    is as the writer left it: with the city's file if the writer had
    created it, without it otherwise; the script removes nothing. *)
Theorem failure_is_recorded w1 e :
  download_city E name (geometry row) save_path km2 w = (w1, Raise e) →
  ∃ w' evs,
    iteration E D proj idx row w = (w', Ok tt) ∧
    csv_rows (csv w')
    = csv_rows (csv w)
      ++ [{| city := name; status := "failed: " +:+ e;
             nodes := None; edges := None; area_km2 := km2 |}] ∧
    trace w' = trace w ++ evs ++ [EvSleep 3] ∧
    match save_call E name (geometry row) save_path w with
    | None =>
        (∀ p G, EvSave p G ∉ evs) ∧ files w' = files w ∧
        files w' !! save_path = None
    | Some (G_main, outcome) =>
        EvSave save_path G_main ∈ evs ∧
        ∃ left_file,
          outcome = SaveError e left_file ∧
          files w' = (if left_file then <[save_path := Truncated]> (files w)
                      else files w) ∧
          files w' !! save_path = if left_file then Some Truncated else None
    end ∧
    main_loop E D proj ((idx, row) :: rest) w = main_loop E D proj rest w'.
Proof.
  intros Hdl.
  pose proof (iteration_attempt E D proj idx row w gp w1 (Raise e)
                not_downloaded not_on_disk projected Hdl) as Hit.
  pose proof (download_city_inv _ _ _ _ _ _ _ _ Hdl) as (Hcsv & _ & _).
  apply download_city_save in Hdl as (evs & Htr & Hsave).
  eexists _, evs. split; [exact Hit|].
  split; [cbn [csv]; by rewrite csv_rows_append, Hcsv|].
  split; [cbn [trace]; by rewrite Htr, <- app_assoc|].
  split; [|by rewrite main_loop_cons, Hit].
  cbn [files].
  destruct (save_call E name (geometry row) save_path w)
    as [[G_main [|e' left_file]]|].
  - by destruct Hsave as [[=] _].
  - destruct Hsave as ([= ->] & Hev & ->). split; [done|].
    exists left_file. split_and!; [done|done|].
    destruct left_file; [by rewrite lookup_insert_eq|done].
  - destruct Hsave as (_ & Hev & ->). done.
Qed.

(** C6, as the code has it: when the sequence completes, exactly one
    row is appended for the city, with status "success" and the node
    and edge counts of the largest connected component that was saved;
    the node count is positive, the edge count is a natural number (0
    for a component of one node); the component is in the city's
    [.graphml] file.  The header [city,status,nodes,edges,area_km2] is
    written in front of the row when, and only when, the log is empty
    or absent. *)
Theorem success_is_recorded w1 rec :
  download_city E name (geometry row) save_path km2 w = (w1, Ok rec) →
  ∃ w' G_main,
    iteration E D proj idx row w = (w', Ok tt) ∧
    csv_rows (csv w') = csv_rows (csv w) ++ [rec] ∧
    rec = {| city := name; status := "success";
             nodes := Some (number_of_nodes G_main);
             edges := Some (number_of_edges G_main); area_km2 := km2 |} ∧
    (0 < number_of_nodes G_main)%nat ∧
    (∃ d, largest_connected_component (to_undirected E d) = Ok G_main) ∧
    files w' !! save_path = Some (GraphML G_main) ∧
    header = ["city"; "status"; "nodes"; "edges"; "area_km2"] ∧
    csv w' = Some match csv w with
                  | Some (Table fieldnames logged) =>
                      Table fieldnames (logged ++ [rec])
                  | Some EmptyFile | None => Table header [rec]
                  end.
Proof.
  intros Hdl.
  pose proof (iteration_attempt E D proj idx row w gp w1 (Ok rec)
                not_downloaded not_on_disk projected Hdl) as Hit.
  apply download_city_inv in Hdl
    as (Hcsv & _ & d & G_main & Hlcc & -> & Hfiles & _).
  eexists _, G_main. split; [exact Hit|].
  cbn [csv files trace outcome_record]. rewrite csv_rows_append, Hcsv, Hfiles.
  split_and!; try done.
  - by apply largest_has_nodes in Hlcc.
  - by exists d.
  - by rewrite lookup_insert_eq.
Qed.

End one_attempt.

(** C8, as the code has it: the 3-second sleep ends every turn of the
    loop that attempts a city, whether the row written is a success or a
    failure; a turn that skips its city changes nothing and does not
    sleep. *)
Theorem sleep_follows_each_attempt E D proj idx row w :
  (strip (name row) ∈ D ∨
   is_Some (files w !! save_path_of (strip (name row))) →
   iteration E D proj idx row w = (w, Ok tt)) ∧
  (∀ gp,
     strip (name row) ∉ D →
     files w !! save_path_of (strip (name row)) = None →
     proj !! idx = Some gp →
     ∃ w' evs rec,
       iteration E D proj idx row w = (w', Ok tt) ∧
       trace w' = trace w ++ evs ++ [EvSleep 3] ∧
       (∀ seconds, EvSleep seconds ∉ evs) ∧
       csv_rows (csv w') = csv_rows (csv w) ++ [rec] ∧
       (status rec = "success" ∨ ∃ e, status rec = "failed: " +:+ e)).
Proof.
  split; [apply iteration_skip|].
  intros gp Hd Hf Hgp.
  destruct (download_city E (strip (name row)) (geometry row)
              (save_path_of (strip (name row))) (area E gp / 1000000) w)
    as [w1 outcome] eqn:Hdl.
  pose proof (iteration_attempt E D proj idx row w gp w1 outcome Hd Hf Hgp Hdl)
    as Hit.
  apply download_city_inv in Hdl as (Hcsv & (evs & Htr & Hevs) & Hout).
  eexists _, evs, _. split; [exact Hit|].
  cbn [csv files trace]. rewrite csv_rows_append, Hcsv, Htr, <- app_assoc.
  split_and!; try done.
  - intros seconds Hev. by destruct (Hevs _ Hev) as [[? ?]|[? ?]].
  - destruct outcome as [rec|e]; simpl; [|eauto].
    destruct Hout as (d & G_main & _ & -> & _). by left.
Qed.

(** The same, in terms of what can be observed afterwards. *)
Lemma iteration_summary E D proj idx row w w' r :
  iteration E D proj idx row w = (w', r) →
  (w' = w ∧
   (r = Ok tt ↔ (strip (name row) ∈ D ∨
                 is_Some (files w !! save_path_of (strip (name row))))) ∧
   (r ≠ Ok tt → proj !! idx = None)) ∨
  ((strip (name row) ∉ D) ∧
   files w !! save_path_of (strip (name row)) = None ∧ r = Ok tt ∧
   ∃ gp rec evs,
     proj !! idx = Some gp ∧
     csv_rows (csv w') = csv_rows (csv w) ++ [rec] ∧
     city rec = strip (name row) ∧
     area_km2 rec = (area E gp / 1000000)%Q ∧
     trace w' = trace w ++ evs ++ [EvSleep 3] ∧
     (∀ ev, ev ∈ evs →
        (∃ geom, ev = EvDownload (strip (name row)) geom network_type) ∨
        (∃ G, ev = EvSave (save_path_of (strip (name row))) G)) ∧
     (∀ p, p ≠ save_path_of (strip (name row)) → files w' !! p = files w !! p) ∧
     (status rec = "success" →
        is_Some (files w' !! save_path_of (strip (name row)))) ∧
     (status rec = "success" ∨ ∃ e, status rec = "failed: " +:+ e)).
Proof.
  intros Hit. apply iteration_inv in Hit
    as [?|(Hd & Hf & -> & gp & w1 & outcome & Hgp & Hdl & ->)]; [by left|].
  right. split_and!; auto.
  apply download_city_inv in Hdl as (Hcsv & (evs & Htr & Hevs) & Hout).
  exists gp, (outcome_record (strip (name row)) (area E gp / 1000000) outcome), evs.
  cbn [csv files trace]. rewrite csv_rows_append, Hcsv, Htr, <- app_assoc.
  split_and!; auto.
  - destruct outcome as [rec|e]; [|done].
    by destruct Hout as (d & Gm & _ & -> & _).
  - destruct outcome as [rec|e]; [|done].
    by destruct Hout as (d & Gm & _ & -> & _).
  - intros p Hp. destruct outcome as [rec|e].
    + destruct Hout as (d & Gm & _ & _ & -> & _). by rewrite lookup_insert_ne.
    + destruct Hout as [->|[-> _]]; [done|]. by rewrite lookup_insert_ne.
  - destruct outcome as [rec|e].
    + destruct Hout as (d & Gm & _ & _ & -> & _). intros _.
      rewrite lookup_insert_eq. eauto.
    + simpl. intros Hs. by apply failed_not_success in Hs.
  - destruct outcome as [rec|e].
    + destruct Hout as (d & Gm & _ & -> & _). by left.
    + right. by exists e.
Qed.

(** Rows are only ever added, and each new row belongs to a row of the
    boundary file, with the area of its projected geometry. *)
Lemma main_loop_rows E D proj rows w w' r :
  main_loop E D proj rows w = (w', r) →
  ∃ new, csv_rows (csv w') = csv_rows (csv w) ++ new ∧
    ∀ rec, rec ∈ new →
      ∃ idx row gp, (idx, row) ∈ rows ∧ proj !! idx = Some gp ∧
        city rec = strip (name row) ∧
        area_km2 rec = (area E gp / 1000000)%Q ∧
        (status rec = "success" ∨ ∃ e, status rec = "failed: " +:+ e).
Proof.
  revert w. induction rows as [|[idx row] rest IH]; intros w.
  - intros [= <- <-]. exists []. rewrite app_nil_r. split; [done|].
    intros rec Hrec. inversion Hrec.
  - rewrite main_loop_cons.
    destruct (iteration E D proj idx row w) as [w1 r1] eqn:Hit.
    assert (∃ new1, csv_rows (csv w1) = csv_rows (csv w) ++ new1 ∧
              ∀ rec, rec ∈ new1 →
                ∃ gp, proj !! idx = Some gp ∧ city rec = strip (name row) ∧
                      area_km2 rec = (area E gp / 1000000)%Q ∧
                      (status rec = "success" ∨
                       ∃ e, status rec = "failed: " +:+ e))
      as (new1 & Hrows1 & Hnew1).
    { apply iteration_summary in Hit
        as [[-> _]|(_ & _ & _ & gp & rec & evs & Hgp & Hrows & Hc & Ha
                & _ & _ & _ & _ & Hst)].
      - exists []. rewrite app_nil_r. split; [done|].
        intros rec Hrec. inversion Hrec.
      - exists [rec]. split; [done|].
        intros rec' ->%list_elem_of_singleton. eauto. }
    assert (∀ rec, rec ∈ new1 →
              ∃ idx0 row0 gp, (idx0, row0) ∈ (idx, row) :: rest ∧
                proj !! idx0 = Some gp ∧ city rec = strip (name row0) ∧
                area_km2 rec = (area E gp / 1000000)%Q ∧
                (status rec = "success" ∨
                 ∃ e, status rec = "failed: " +:+ e)) as Hnew1'.
    { intros rec Hrec. destruct (Hnew1 rec Hrec) as (gp & ? & ? & ? & ?).
      exists idx, row, gp. split; [by left|done]. }
    destruct r1 as [[]|e].
    + intros Hloop. apply IH in Hloop as (new & Hrows & Hnew).
      exists (new1 ++ new). rewrite Hrows, Hrows1, <- app_assoc. split; [done|].
      intros rec [Hrec|Hrec]%elem_of_app; [auto|].
      destruct (Hnew rec Hrec) as (idx0 & row0 & gp & ? & ?).
      exists idx0, row0, gp. split; [by right|done].
    + intros [= <- <-]. exists new1. done.
Qed.

Lemma script_inv E china_cities w w' r :
  script E china_cities w = (w', r) →
  (w' = w ∧ ∃ e, r = Raise e ∧ (load_downloaded_cities E w).2 = Raise e) ∨
  ∃ D, (load_downloaded_cities E w).2 = Ok D ∧
    main_loop E D (map (λ row, to_crs E (geometry row) 3857) china_cities)
      (iterrows china_cities) w = (w', r).
Proof.
  unfold script, mbind, load_downloaded_cities. simpl.
  destruct (match csv w with
            | Some f => read_downloaded_cities E f
            | None => Ok ∅
            end) as [D|e].
  - intros Hloop. right. by exists D.
  - intros [= <- <-]. left. eauto.
Qed.

Lemma elem_of_read_str E column field n :
  read_str E column field = Some n ↔
  n = field ∧ text_column E column = true ∧ pd_kind E n ≠ Missing.
Proof.
  unfold read_str. split.
  - destruct (text_column E column); simpl; [|done].
    destruct (pd_kind E field) eqn:Hk; simpl; [done|..];
      intros [= <-]; rewrite Hk; done.
  - intros (-> & -> & Hk). by destruct (pd_kind E field).
Qed.

(** The strings of the skip set: the names with a success row that the
    city column gives back as they were written. *)
Lemma read_downloaded_cities_spec E w D :
  (load_downloaded_cities E w).2 = Ok D →
  ∀ n, n ∈ D ↔
    reads_back E (csv_rows (csv w)) n ∧
    ∃ rec, rec ∈ csv_rows (csv w) ∧ city rec = n ∧ status rec = "success".
Proof.
  unfold load_downloaded_cities, reads_back. simpl.
  destruct (csv w) as [[|cols logged]|]; simpl.
  - done.
  - repeat case_decide; try done. intros [= <-] n.
    rewrite elem_of_list_to_set, list_elem_of_omap. split.
    + intros (rec & [? ?]%list_elem_of_filter & (-> & ? & ?)%elem_of_read_str).
      eauto 6.
    + intros ([? ?] & rec & ? & <- & ?). exists rec. split.
      * by apply list_elem_of_filter.
      * by apply elem_of_read_str.
  - intros [= <-] n. split; [set_solver|].
    intros (_ & rec & Hrec & _). inversion Hrec.
Qed.

(** A city in the skip set, or with its file on disk, is passed over by
    the whole loop. *)
Lemma main_loop_skips E D proj rows w w' r name :
  name ∈ D ∨ is_Some (files w !! save_path_of name) →
  main_loop E D proj rows w = (w', r) →
  ∃ evs new,
    trace w' = trace w ++ evs ∧
    (∀ geom nt, EvDownload name geom nt ∉ evs) ∧
    csv_rows (csv w') = csv_rows (csv w) ++ new ∧
    (∀ rec, rec ∈ new → city rec ≠ name).
Proof.
  revert w. induction rows as [|[idx row] rest IH]; intros w Hdone.
  - intros [= <- <-]. exists [], []. rewrite !app_nil_r.
    split_and!; auto; no_elem.
  - rewrite main_loop_cons.
    destruct (iteration E D proj idx row w) as [w1 r1] eqn:Hit.
    assert (∃ evs1 new1,
      trace w1 = trace w ++ evs1 ∧
      (∀ geom nt, EvDownload name geom nt ∉ evs1) ∧
      csv_rows (csv w1) = csv_rows (csv w) ++ new1 ∧
      (∀ rec, rec ∈ new1 → city rec ≠ name) ∧
      (name ∈ D ∨ is_Some (files w1 !! save_path_of name)))
      as (evs1 & new1 & Htr1 & Hdl1 & Hrows1 & Hnew1 & Hdone1).
    { apply iteration_summary in Hit
        as [[-> _]|(Hd & Hf & _ & gp & rec & evs & _ & Hrows & Hc & _
                    & Htr & Hevs & Hfiles & _)].
      - exists [], []. rewrite !app_nil_r.
        split_and!; auto; no_elem.
      - assert (strip (Script.name row) ≠ name) as Hne.
        { intros Heq. rewrite Heq in Hd, Hf. destruct Hdone as [?|[? Hs]]; [done|].
          congruence. }
        exists (evs ++ [EvSleep 3]), [rec]. split_and!; auto.
        + intros geom nt [Hev|Hev]%elem_of_app.
          * destruct (Hevs _ Hev) as [[? [= ? _]]|[? [=]]]. congruence.
          * apply list_elem_of_singleton in Hev. discriminate.
        + intros rec' ->%list_elem_of_singleton. congruence.
        + destruct Hdone as [?|Hs]; [by left|right].
          rewrite Hfiles; [done|]. intros Hp. rewrite Hp, Hf in Hs.
          by destruct Hs. }
    destruct r1 as [[]|e].
    + intros Hloop.
      apply (IH w1 Hdone1) in Hloop as (evs & new & Htr & Hdl & Hrows & Hnew).
      exists (evs1 ++ evs), (new1 ++ new).
      rewrite Htr, Htr1, Hrows, Hrows1, <- !app_assoc.
      split_and!; auto.
      * intros geom nt [?|?]%elem_of_app; [by eapply Hdl1|by eapply Hdl].
      * intros rec [?|?]%elem_of_app; auto.
    + intros [= <- <-]. exists evs1, new1. done.
Qed.

(** X19: a city is skipped by the whole run when its [.graphml] file is
    on disk at start-up, or when the log it starts from has a success
    row for it and gives its name back as the text that was written:
    no download is made for it, no row with its name is appended, and
    the rows already in the log stay as they are, in front of the new
    ones. *)
Theorem done_cities_are_skipped E china_cities w name :
  (reads_back E (csv_rows (csv w)) name ∧
   ∃ rec, rec ∈ csv_rows (csv w) ∧ city rec = name ∧ status rec = "success") ∨
  is_Some (files w !! save_path_of name) →
  ∃ evs new,
    trace (script E china_cities w).1 = trace w ++ evs ∧
    (∀ geom nt, EvDownload name geom nt ∉ evs) ∧
    csv_rows (csv (script E china_cities w).1) = csv_rows (csv w) ++ new ∧
    (∀ rec, rec ∈ new → city rec ≠ name).
Proof.
  intros Hdone. destruct (script E china_cities w) as [w' r] eqn:Hs. simpl.
  apply script_inv in Hs as [[-> _]|(D & HD & Hloop)].
  - exists [], []. rewrite !app_nil_r.
    split_and!; auto; no_elem.
  - eapply main_loop_skips; [|exact Hloop].
    destruct Hdone as [Hrec|?]; [left|by right].
    by apply (read_downloaded_cities_spec E w D HD).
Qed.

(** The success rows of every city stay at most one, and their files
    stay on disk, when that is so at the start. *)
Lemma main_loop_success_once E D proj rows w w' r :
  success_once (csv_rows (csv w)) →
  (∀ n, success_rows n (csv_rows (csv w)) ≠ [] →
        is_Some (files w !! save_path_of n)) →
  main_loop E D proj rows w = (w', r) →
  success_once (csv_rows (csv w')) ∧
  (∀ n, success_rows n (csv_rows (csv w')) ≠ [] →
        is_Some (files w' !! save_path_of n)).
Proof.
  revert w. induction rows as [|[idx row] rest IH]; intros w Honce Hdone.
  - by intros [= <- <-].
  - rewrite main_loop_cons.
    destruct (iteration E D proj idx row w) as [w1 r1] eqn:Hit.
    assert (success_once (csv_rows (csv w1)) ∧
            ∀ n, success_rows n (csv_rows (csv w1)) ≠ [] →
                 is_Some (files w1 !! save_path_of n)) as [Honce1 Hdone1].
    { apply iteration_summary in Hit
        as [[-> _]|(Hd & Hf & _ & gp & rec & evs & _ & Hrows & Hc & _
                    & _ & _ & Hfiles & Hsaved & Hst)]; [done|].
      assert (success_rows (strip (name row)) (csv_rows (csv w)) = []) as Hnone.
      { destruct (success_rows _ (csv_rows (csv w))) eqn:Hsr; [done|].
        destruct (Hdone (strip (name row))) as [? Hs]; [by rewrite Hsr|].
        congruence. }
      assert (∀ n, n ≠ strip (name row) ∨ status rec ≠ "success" →
                success_rows n (csv_rows (csv w1))
                = success_rows n (csv_rows (csv w))) as Hsame.
      { intros n Hn. rewrite Hrows. unfold success_rows.
        rewrite filter_app, filter_cons_False, filter_nil, app_nil_r; [done|].
        rewrite Hc. intros [<- ?]. by destruct Hn. }
      split.
      - intros n. unfold success_once in Honce.
        destruct (decide (n = strip (name row) ∧ status rec = "success"))
          as [[-> Hs]|Hn].
        + rewrite Hrows. unfold success_rows in *.
          rewrite filter_app, Hnone, filter_cons_True by done. simpl. lia.
        + rewrite Hsame; [done|].
          destruct (decide (n = strip (name row))); [right|left]; tauto.
      - intros n Hsr. destruct (decide (n = strip (name row))) as [->|Hne].
        + apply Hsaved.
          destruct (decide (status rec = "success")) as [?|Hs]; [done|].
          rewrite Hsame, Hnone in Hsr by tauto. done.
        + rewrite Hsame in Hsr by tauto.
          pose proof (Hdone n Hsr) as Hs.
          rewrite Hfiles; [done|]. intros Hp. rewrite Hp, Hf in Hs.
          by destruct Hs. }
    destruct r1 as [[]|e]; [by apply IH|]. by intros [= <- <-].
Qed.

Lemma script_success_once E china_cities w :
  success_once (csv_rows (csv w)) →
  (∀ n, success_rows n (csv_rows (csv w)) ≠ [] →
        is_Some (files w !! save_path_of n)) →
  success_once (csv_rows (csv (script E china_cities w).1)) ∧
  (∀ n, success_rows n (csv_rows (csv (script E china_cities w).1)) ≠ [] →
        is_Some (files (script E china_cities w).1 !! save_path_of n)).
Proof.
  intros Honce Hdone. destruct (script E china_cities w) as [w' r] eqn:Hs. simpl.
  apply script_inv in Hs as [[-> _]|(D & HD & Hloop)]; [done|].
  by eapply main_loop_success_once.
Qed.

(** C5, as the code has it: two runs in a row leave at most one
    "success" row for each city in the log, when the log they start
    from has at most one and the file of every city with a success row
    is still on disk (as it is after a first run from nothing); a city
    that fails gets one more "failed" row from each run that tries
    it. *)
Theorem two_runs_one_success_row E1 E2 china_cities w :
  success_once (csv_rows (csv w)) →
  (∀ n, success_rows n (csv_rows (csv w)) ≠ [] →
        is_Some (files w !! save_path_of n)) →
  success_once
    (csv_rows (csv (script E2 china_cities (script E1 china_cities w).1).1)).
Proof.
  intros Honce Hdone.
  destruct (script_success_once E1 china_cities w Honce Hdone) as [Honce1 Hdone1].
  by apply script_success_once.
Qed.

(** C10: every row the script appends, for a failed city as for a
    successful one, carries as [area_km2] the area of the city's
    geometry in the metric projection, divided by 10^6. *)
Theorem every_row_carries_area E china_cities w :
  ∃ new,
    csv_rows (csv (script E china_cities w).1) = csv_rows (csv w) ++ new ∧
    ∀ rec, rec ∈ new →
      (status rec = "success" ∨ ∃ e, status rec = "failed: " +:+ e) ∧
      ∃ idx row, china_cities !! idx = Some row ∧
        city rec = strip (name row) ∧
        area_km2 rec = (area E (to_crs E (geometry row) 3857) / 1000000)%Q.
Proof.
  destruct (script E china_cities w) as [w' r] eqn:Hs. simpl.
  apply script_inv in Hs as [[-> _]|(D & _ & Hloop)].
  - exists []. rewrite app_nil_r. split; [done|]. intros rec Hrec. inversion Hrec.
  - apply main_loop_rows in Hloop as (new & Hrows & Hnew).
    exists new. split; [done|]. intros rec Hrec.
    destruct (Hnew rec Hrec) as (idx & row & gp & Hin & Hgp & Hc & Ha & Hst).
    split; [done|].
    apply elem_of_lookup_imap in Hin as (i & row' & [= -> ->] & Hrow).
    rewrite list_lookup_fmap, Hrow in Hgp. injection Hgp as <-.
    exists i, row'. done.
Qed.

End script_facts.

(** * Ties in [max] *)

Section max_first.
Context {A K : Type} (ltb : K → K → bool) (key : A → K).
Hypothesis ltb_trans :
  ∀ a b c, ltb a b = true → ltb b c = true → ltb a c = true.
Hypothesis ltb_le_trans :
  ∀ a b c, ltb a b = false → ltb a c = true → ltb b c = true.

(** [max] keeps the first of the elements with the largest key: what
    stands before it is smaller, what stands after it is not larger. *)
Lemma max_from_first before best after xs :
  Forall (λ a, ltb (key a) (key best) = true) before →
  Forall (λ a, ltb (key best) (key a) = false) after →
  ∃ before' after',
    before ++ best :: after ++ xs
    = before' ++ max_from ltb key best xs :: after' ∧
    Forall (λ a, ltb (key a) (key (max_from ltb key best xs)) = true) before' ∧
    Forall (λ a, ltb (key (max_from ltb key best xs)) (key a) = false) after'.
Proof.
  revert before best after.
  induction xs as [|x xs IH]; intros before best after Hb Ha; simpl.
  - exists before, after. by rewrite app_nil_r.
  - destruct (ltb (key best) (key x)) eqn:Hlt.
    + destruct (IH (before ++ best :: after) x []) as (b' & a' & Heq & ? & ?).
      * apply Forall_app. split; [|constructor].
        -- eapply Forall_impl; [exact Hb|]. simpl. eauto.
        -- done.
        -- eapply Forall_impl; [exact Ha|]. simpl. eauto.
      * constructor.
      * exists b', a'. split; [|done]. rewrite <- Heq.
        by rewrite <- !app_assoc.
    + destruct (IH before best (after ++ [x])) as (b' & a' & Heq & ? & ?).
      * done.
      * apply Forall_app. split; [done|]. by constructor.
      * exists b', a'. split; [|done]. rewrite <- Heq.
        by rewrite <- !app_assoc.
Qed.

Lemma py_max_first xs m :
  py_max ltb key xs = Ok m →
  ∃ before after, xs = before ++ m :: after ∧
    Forall (λ a, ltb (key a) (key m) = true) before ∧
    Forall (λ a, ltb (key m) (key a) = false) after.
Proof.
  destruct xs as [|x xs]; [done|]. simpl. intros [= <-].
  destruct (max_from_first [] x [] xs) as (b' & a' & Heq & ? & ?);
    [constructor..|].
  exists b', a'. done.
Qed.

End max_first.

(** * More about the graph reduction *)

Section graph_more.
Import Graph.
Implicit Types (G : graph) (u v w x y : nat) (c seen : list nat).

Lemma filter_all {A} (P : A → Prop) `{!∀ a, Decision (P a)} (l : list A) :
  (∀ a, a ∈ l → P a) → filter P l = l.
Proof.
  induction l as [|b l IH]; intros Hall; [done|].
  rewrite filter_cons_True by (apply Hall; by left).
  f_equal. apply IH. intros a ?. apply Hall. by right.
Qed.

(** Nodes that are all listed already add nothing to the node order. *)
Lemma first_seen_listed seen l extra :
  NoDup l → (∀ x, x ∈ l → x ∉ seen) →
  (∀ x, x ∈ extra → x ∈ l ∨ x ∈ seen) →
  first_seen seen (l ++ extra) = l.
Proof.
  revert seen. induction l as [|a l IH]; intros seen Hnd Hfresh Hextra.
  - simpl. induction extra as [|b extra IHe]; [done|]. simpl.
    destruct (Hextra b) as [Hb|Hb]; [by left|inversion Hb|].
    rewrite decide_True by done. apply IHe. intros x ?. apply Hextra. by right.
  - apply NoDup_cons in Hnd as [Ha Hnd]. simpl.
    rewrite decide_False by (apply Hfresh; by left).
    f_equal. apply IH; [done|..].
    + intros x Hx [->|Hs]%elem_of_cons; [done|].
      by apply (Hfresh x); [right|].
    + intros x Hx. destruct (Hextra x Hx) as [[->|?]%elem_of_cons|?].
      * right. by left.
      * by left.
      * right. by right.
Qed.

Lemma nodes_subgraph G c :
  (∀ u, u ∈ c → u ∈ nodes G) →
  nodes (subgraph G c) = filter (λ v, v ∈ c) (nodes G).
Proof.
  intros Hsub. unfold nodes at 1. simpl. apply first_seen_listed.
  - apply NoDup_filter, NoDup_nodes.
  - intros x _. apply not_elem_of_nil.
  - intros x (e & He & Hx)%elem_of_endpoints. left.
    apply list_elem_of_filter in He as [[? ?] _].
    apply list_elem_of_filter. destruct Hx as [-> | ->]; auto.
Qed.

(** What [largest_connected_component] returns, when it returns. *)
Lemma largest_inv G G_main :
  largest_connected_component G = Ok G_main →
  ∃ c, G_main = subgraph G c ∧ is_component G c ∧
       c ∈ connected_components G.
Proof.
  unfold largest_connected_component. intros Hlcc.
  destruct (connected_components G) as [|c0 cs] eqn:Hcc; [done|].
  destruct (py_max_length (c0 :: cs)) as (c & Hc & Hin & _); [done|].
  rewrite Hc in Hlcc. injection Hlcc as <-. exists c. split; [done|].
  split; [|done]. apply connected_components_component. by rewrite Hcc.
Qed.

(** A path from a node of a component stays inside the component. *)
Lemma connected_inside G c x y :
  is_component G c → x ∈ c → connected G x y → connected (subgraph G c) x y.
Proof.
  intros Hc Hx Hxy. induction Hxy as [x|x z y Hxz Hzy IH]; [constructor|].
  assert (z ∈ c) as Hz.
  { destruct Hc as (_ & _ & _ & Hc). apply (Hc x z Hx). by apply rtc_once. }
  eapply rtc_l; [|by apply IH].
  destruct Hxz as [He|He]; [left|right]; simpl;
    apply list_elem_of_filter; simpl; auto.
Qed.

(** X1: what [largest_connected_component] returns is a connected
    graph: any two of its nodes are joined by a path of its own edges. *)
Theorem largest_is_connected G G_main u v :
  largest_connected_component G = Ok G_main →
  u ∈ nodes G_main → v ∈ nodes G_main → connected G_main u v.
Proof.
  intros (c & -> & Hc & _)%largest_inv Hu Hv.
  assert (∀ u, u ∈ c → u ∈ nodes G) as Hsub by apply Hc.
  apply (elem_of_nodes_subgraph G c _ Hsub) in Hu, Hv.
  apply connected_inside; [done|done|].
  destruct Hc as (_ & _ & _ & Hc). by apply (Hc u v).
Qed.

Lemma subgraph_whole G c :
  NoDup (g_nodes G) →
  (∀ e, e ∈ g_edges G → e.1 ∈ g_nodes G ∧ e.2 ∈ g_nodes G) →
  (∀ v, v ∈ g_nodes G → v ∈ c) →
  subgraph G c = G.
Proof.
  intros Hnd Hedges Hall.
  assert (nodes G = g_nodes G) as Hnodes.
  { unfold nodes. apply first_seen_listed; [done|..].
    - intros x _. apply not_elem_of_nil.
    - intros x (e & He & Hx)%elem_of_endpoints. left.
      destruct (Hedges e He). by destruct Hx as [-> | ->]. }
  destruct G as [ns es]. unfold subgraph. rewrite Hnodes. simpl in *. f_equal.
  - by apply filter_all.
  - apply filter_all. intros e He. destruct (Hedges e He). auto.
Qed.

(** X2: reducing a graph that is already reduced changes nothing. *)
Theorem largest_idempotent G G_main :
  largest_connected_component G = Ok G_main →
  largest_connected_component G_main = Ok G_main.
Proof.
  intros Hlcc. pose proof Hlcc as (c & -> & Hc & _)%largest_inv.
  assert (∀ u, u ∈ c → u ∈ nodes G) as Hsub by apply Hc.
  pose proof (largest_has_nodes _ _ Hlcc) as Hpos.
  destruct (largest_is_component (subgraph G c)) as (c' & Hlcc' & Hc' & _).
  { unfold number_of_nodes in Hpos. intros Hnil. rewrite Hnil in Hpos.
    simpl in Hpos. lia. }
  rewrite Hlcc'. f_equal. apply subgraph_whole.
  - simpl. apply NoDup_filter, NoDup_nodes.
  - intros e He. simpl in *. apply list_elem_of_filter in He as [[? ?] He].
    split; apply list_elem_of_filter; auto.
  - intros v Hv.
    assert (v ∈ nodes (subgraph G c)) as Hvn.
    { apply elem_of_nodes. by left. }
    destruct Hc' as (Hne & _ & Hsub' & Hcomp).
    destruct c' as [|u0 c0] eqn:Heq; [done|]. rewrite <- Heq in *.
    assert (u0 ∈ c') as Hu0 by (rewrite Heq; by left).
    apply (Hcomp u0 v Hu0).
    apply (elem_of_nodes_subgraph G c _ Hsub) in Hvn.
    pose proof (Hsub' u0 Hu0) as Hu0c.
    apply (elem_of_nodes_subgraph G c _ Hsub) in Hu0c.
    apply connected_inside; [done|done|].
    destruct Hc as (_ & _ & _ & Hc). by apply (Hc u0 v).
Qed.

(** X3: the reduction only leaves things out: every node and every
    edge of the result is one of the graph, an edge no more often than
    in the graph, so that neither count grows. *)
Theorem largest_is_subgraph G G_main :
  largest_connected_component G = Ok G_main →
  nodes G_main ⊆+ nodes G ∧
  g_edges G_main ⊆+ g_edges G ∧
  (number_of_nodes G_main ≤ number_of_nodes G)%nat ∧
  (number_of_edges G_main ≤ number_of_edges G)%nat.
Proof.
  intros (c & -> & Hc & _)%largest_inv.
  assert (nodes (subgraph G c) ⊆+ nodes G) as Hn.
  { rewrite nodes_subgraph by apply Hc. apply sublist_submseteq, sublist_filter. }
  assert (g_edges (subgraph G c) ⊆+ g_edges G) as He.
  { simpl. apply sublist_submseteq, sublist_filter. }
  split_and!; [done|done|..]; by apply submseteq_length.
Qed.

(** X5: the reduction cuts no edge: an edge of the graph with an end in
    the result is an edge of the result. *)
Theorem largest_cuts_no_edge G G_main e :
  largest_connected_component G = Ok G_main →
  e ∈ g_edges G → e.1 ∈ nodes G_main ∨ e.2 ∈ nodes G_main →
  e ∈ g_edges G_main.
Proof.
  intros (c & -> & Hc & _)%largest_inv He Hend.
  assert (∀ u, u ∈ c → u ∈ nodes G) as Hsub by apply Hc.
  rewrite !(elem_of_nodes_subgraph G c _ Hsub) in Hend.
  destruct Hc as (_ & _ & _ & Hc). destruct e as [a b]. simpl in *.
  apply list_elem_of_filter. split; [|done]. simpl.
  destruct Hend as [Ha|Hb].
  - split; [done|]. apply (Hc a b Ha). apply rtc_once. by left.
  - split; [|done]. apply (Hc b a Hb). apply rtc_once. by right.
Qed.

(** X4: of several components of the largest size, the one
    [nx.connected_components] meets first is kept: the components
    before it are smaller, those after it are not larger. *)
Theorem largest_first_of_equals G G_main :
  largest_connected_component G = Ok G_main →
  ∃ before c after,
    connected_components G = before ++ c :: after ∧
    G_main = subgraph G c ∧
    Forall (λ c', (length c' < length c)%nat) before ∧
    Forall (λ c', (length c' ≤ length c)%nat) after.
Proof.
  unfold largest_connected_component. intros Hlcc.
  destruct (py_max Nat.ltb length (connected_components G)) as [c|] eqn:Hmax;
    [|done].
  injection Hlcc as <-.
  apply py_max_first in Hmax as (before & after & Heq & Hb & Ha).
  - exists before, c, after. split_and!; [done|done|..].
    + eapply Forall_impl; [exact Hb|]. simpl. intros c' ?%Nat.ltb_lt. done.
    + eapply Forall_impl; [exact Ha|]. simpl. intros c' ?%Nat.ltb_ge. done.
  - intros a b d ?%Nat.ltb_lt ?%Nat.ltb_lt. apply Nat.ltb_lt. lia.
  - intros a b d ?%Nat.ltb_ge ?%Nat.ltb_lt. apply Nat.ltb_lt. lia.
Qed.

End graph_more.

(** * More about the geometry reducer *)

Section geometry_more.
Import Geometry Script.
Variable area : shape → Q.
Variable simplify : shape → Q → bool → shape.

Lemma Qltb_lt a b : Qltb a b = true ↔ (a < b)%Q.
Proof.
  unfold Qltb. rewrite negb_true_iff. split.
  - intros H. apply Qnot_le_lt. intros Hle%Qle_bool_iff. congruence.
  - intros Hlt. destruct (Qle_bool b a) eqn:Hle; [|done].
    apply Qle_bool_iff in Hle. by apply Qlt_not_le in Hlt.
Qed.

Lemma Qltb_ge a b : Qltb a b = false ↔ (b <= a)%Q.
Proof. unfold Qltb. rewrite negb_false_iff. apply Qle_bool_iff. Qed.



(** X7: of several parts of the largest area the first is chosen: the
    result on a multi-polygon is the result on one of its parts alone,
    the parts before it are smaller and those after it not larger. *)
Theorem get_city_polygon_first_of_equals geoms tolerance g :
  get_city_polygon area simplify (MultiPolygon geoms) tolerance = Ok g →
  ∃ before p after,
    geoms = before ++ p :: after ∧
    get_city_polygon area simplify (Polygon p) tolerance = Ok g ∧
    Forall (λ q, (area (Polygon q) < area (Polygon p))%Q) before ∧
    Forall (λ q, (area (Polygon q) <= area (Polygon p))%Q) after.
Proof.
  unfold get_city_polygon. simpl.
  destruct (py_max Qltb area (map Polygon geoms)) as [m|] eqn:Hmax; [|done].
  simpl. intros Hg.
  apply py_max_first in Hmax as (before & after & Heq & Hb & Ha).
  - apply fmap_app_inv in Heq as (before' & rest & -> & Hrest & ->).
    symmetry in Hrest.
    apply fmap_cons_inv in Hrest as (p & after' & -> & -> & ->).
    exists before', p, after'. split_and!; [done|done|..].
    + apply Forall_fmap in Hb. eapply Forall_impl; [exact Hb|]. simpl.
      intros q. apply Qltb_lt.
    + apply Forall_fmap in Ha. eapply Forall_impl; [exact Ha|]. simpl.
      intros q. apply Qltb_ge.
  - intros a b c ?%Qltb_lt ?%Qltb_lt. apply Qltb_lt. by eapply Qlt_trans.
  - intros a b c ?%Qltb_ge ?%Qltb_lt. apply Qltb_lt. by eapply Qle_lt_trans.
Qed.

End geometry_more.

(** * More about the main loop *)

Section script_more.
Import Graph Geometry Script.
Implicit Types (E : env) (w : world) (D : gset string) (proj : list shape).
Implicit Types (row : city_row) (rows : list (nat * city_row)).

(** An attempt makes at most one download, and saves only after it. *)
Lemma download_city_trace E name g path a w w1 rb :
  download_city E name g path a w = (w1, rb) →
  ∃ evs, trace w1 = trace w ++ evs ∧
    (evs = [] ∨
     (∃ geom, evs = [EvDownload name geom network_type]) ∨
     (∃ geom G, evs = [EvDownload name geom network_type; EvSave path G])).
Proof.
  unfold download_city, mbind, lift, ret, ox_graph_from_polygon, ox_save_graphml.
  destruct (get_city_polygon _ _ g _) as [geom|e].
  2:{ intros [= <- <-]. exists []. rewrite app_nil_r. auto. }
  destruct (graph_from_polygon E (trace w) geom network_type) as [d|e].
  2:{ intros [= <- <-]. eexists. split; [done|]. eauto. }
  destruct (largest_connected_component (to_undirected E d)) as [Gm|e].
  2:{ intros [= <- <-]. eexists. split; [done|]. eauto. }
  destruct (save_graphml E _ Gm path) as [|e left_file];
    intros [= <- <-]; simpl; eexists; (split; [by rewrite <- app_assoc|]);
    right; right; eauto.
Qed.

(** One turn, in full: skipped (or out of range), or attempted with one
    row, at most one download and one save, the sleep, and the file of
    the city as the only one that can change. *)
Lemma iteration_detail E D proj idx row w w' r :
  iteration E D proj idx row w = (w', r) →
  (w' = w ∧
   (r = Ok tt ↔ (strip (name row) ∈ D ∨
                 is_Some (files w !! save_path_of (strip (name row))))) ∧
   (r ≠ Ok tt → proj !! idx = None)) ∨
  ((strip (name row) ∉ D) ∧
   files w !! save_path_of (strip (name row)) = None ∧ r = Ok tt ∧
   ∃ rec evs,
     csv w' = Some (append_row (csv w) rec) ∧
     city rec = strip (name row) ∧
     trace w' = trace w ++ evs ++ [EvSleep 3] ∧
     (evs = [] ∨
      (∃ geom, evs = [EvDownload (strip (name row)) geom network_type]) ∨
      (∃ geom G, evs = [EvDownload (strip (name row)) geom network_type;
                        EvSave (save_path_of (strip (name row))) G])) ∧
     ((∃ G, status rec = "success" ∧
            nodes rec = Some (number_of_nodes G) ∧
            edges rec = Some (number_of_edges G) ∧
            (0 < number_of_nodes G)%nat ∧
            files w' = <[save_path_of (strip (name row)) := GraphML G]> (files w)) ∨
      ((∃ e, status rec = "failed: " +:+ e) ∧
       (files w' = files w ∨
        files w' = <[save_path_of (strip (name row)) := Truncated]> (files w))))).
Proof.
  intros Hit. apply iteration_inv in Hit
    as [?|(Hd & Hf & -> & gp & w1 & outcome & Hgp & Hdl & ->)]; [by left|].
  right. split_and!; auto.
  pose proof (download_city_trace _ _ _ _ _ _ _ _ Hdl) as (evs & Htr & Hshape).
  apply download_city_inv in Hdl as (Hcsv & _ & Hout).
  exists (outcome_record (strip (name row)) (area E gp / 1000000) outcome), evs.
  cbn [csv files trace]. rewrite Hcsv, Htr, <- app_assoc.
  split_and!; auto.
  - destruct outcome as [rec|e]; [|done].
    by destruct Hout as (d & Gm & _ & -> & _).
  - destruct outcome as [rec|e]; simpl.
    + destruct Hout as (d & Gm & Hlcc & -> & -> & _). left. exists Gm.
      split_and!; auto. by apply largest_has_nodes in Hlcc.
    + right. split; [by exists e|]. destruct Hout as [->|[-> _]]; auto.
Qed.

Lemma count_events_app f evs1 evs2 :
  count_events f (evs1 ++ evs2)
  = (count_events f evs1 + count_events f evs2)%nat.
Proof. unfold count_events. by rewrite List.filter_app, length_app. Qed.

Lemma delayed_app evs1 evs2 pending :
  delayed pending evs1 = true →
  delayed pending (evs1 ++ evs2) = delayed false evs2.
Proof.
  revert pending. induction evs1 as [|ev evs1 IH]; intros pending; simpl.
  - by intros ->%negb_true_iff.
  - destruct ev; [intros [-> ?]%andb_true_iff; simpl|..]; auto.
Qed.

Lemma append_row_table f rec :
  append_row f rec = Table (fieldnames_of f) (csv_rows f ++ [rec]).
Proof. by destruct f as [[|cols logged]|]. Qed.

(** The loop leaves every file as it found it, and creates files only at
    the paths of the cities it goes through. *)
Lemma main_loop_files E D proj rows w w' r :
  main_loop E D proj rows w = (w', r) →
  (∀ p c, files w !! p = Some c → files w' !! p = Some c) ∧
  (∀ p, files w !! p = None → is_Some (files w' !! p) →
        ∃ idx row, (idx, row) ∈ rows ∧ p = save_path_of (strip (name row))).
Proof.
  revert w. induction rows as [|[idx row] rest IH]; intros w.
  - intros [= <- <-]. split; [done|]. intros p -> [? ?]. done.
  - rewrite main_loop_cons.
    destruct (iteration E D proj idx row w) as [w1 r1] eqn:Hit.
    assert ((∀ p c, files w !! p = Some c → files w1 !! p = Some c) ∧
            (∀ p, files w !! p = None → is_Some (files w1 !! p) →
                  p = save_path_of (strip (name row)))) as [Hkeep1 Hnew1].
    { apply iteration_detail in Hit
        as [(-> & _)|(_ & Hf & _ & rec & evs & _ & _ & _ & _ & Hfiles)].
      { split; [done|]. intros p -> [? ?]. done. }
      assert (files w1 = files w ∨
              ∃ c, files w1 = <[save_path_of (strip (name row)) := c]> (files w))
        as [->|[c ->]].
      { destruct Hfiles as [(G & _ & _ & _ & _ & ->)|[_ [->| ->]]]; eauto. }
      { split; [done|]. intros p -> [? ?]. done. }
      split.
      - intros p c' Hp. rewrite lookup_insert_ne; [done|]. intros <-. congruence.
      - intros p Hp Hsome.
        destruct (decide (save_path_of (strip (name row)) = p)) as [<-|Hne];
          [done|].
        rewrite lookup_insert_ne, Hp in Hsome by done. by destruct Hsome. }
    destruct r1 as [[]|e].
    + intros Hloop. apply IH in Hloop as [Hkeep Hnew]. split; [by auto|].
      intros p Hp Hsome. destruct (files w1 !! p) as [c|] eqn:Hp1.
      * exists idx, row. split; [by left|]. apply Hnew1; [done|]. by rewrite Hp1.
      * destruct (Hnew p Hp1 Hsome) as (i & r0 & ? & ?).
        exists i, r0. split; [by right|done].
    + intros [= <- <-]. split; [done|]. intros p Hp Hsome.
      exists idx, row. split; [by left|]. by apply Hnew1.
Qed.

(** The file of a success row is on disk when the loop ends, with the
    graph the row counts. *)
Lemma main_loop_saved E D proj rows w w' r :
  main_loop E D proj rows w = (w', r) →
  ∃ new, csv_rows (csv w') = csv_rows (csv w) ++ new ∧
    ∀ rec, rec ∈ new → status rec = "success" →
      ∃ G, files w' !! save_path_of (city rec) = Some (GraphML G) ∧
           nodes rec = Some (number_of_nodes G) ∧
           edges rec = Some (number_of_edges G) ∧
           (0 < number_of_nodes G)%nat.
Proof.
  revert w. induction rows as [|[idx row] rest IH]; intros w.
  - intros [= <- <-]. exists []. rewrite app_nil_r. split; [done|]. no_elem.
  - rewrite main_loop_cons.
    destruct (iteration E D proj idx row w) as [w1 r1] eqn:Hit.
    assert (∃ new1, csv_rows (csv w1) = csv_rows (csv w) ++ new1 ∧
              ∀ rec, rec ∈ new1 → status rec = "success" →
                ∃ G, files w1 !! save_path_of (city rec) = Some (GraphML G) ∧
                     nodes rec = Some (number_of_nodes G) ∧
                     edges rec = Some (number_of_edges G) ∧
                     (0 < number_of_nodes G)%nat) as (new1 & Hrows1 & Hnew1).
    { apply iteration_detail in Hit
        as [(-> & _)|(_ & _ & _ & rec & evs & Hcsv & Hc & _ & _ & Hout)].
      { exists []. rewrite app_nil_r. split; [done|]. no_elem. }
      exists [rec]. rewrite Hcsv, csv_rows_append. split; [done|].
      intros rec' ->%list_elem_of_singleton Hs.
      destruct Hout as [(G & _ & ? & ? & ? & ->)|[[e He] _]].
      - exists G. rewrite Hc, lookup_insert_eq. done.
      - rewrite He in Hs. by apply failed_not_success in Hs. }
    destruct r1 as [[]|e].
    + intros Hloop. pose proof (main_loop_files _ _ _ _ _ _ _ Hloop) as [Hkeep _].
      apply IH in Hloop as (new & Hrows & Hnew).
      exists (new1 ++ new). rewrite Hrows, Hrows1, <- app_assoc. split; [done|].
      intros rec [Hrec|Hrec]%elem_of_app Hs; [|by auto].
      destruct (Hnew1 rec Hrec Hs) as (G & HG & ?). exists G. split; auto.
    + intros [= <- <-]. exists new1. done.
Qed.

(** The events of one attempt, with the sleep that ends the turn. *)
Lemma turn_events name path evs :
  evs = [] ∨
  (∃ geom, evs = [EvDownload name geom network_type]) ∨
  (∃ geom G, evs = [EvDownload name geom network_type; EvSave path G]) →
  delayed false (evs ++ [EvSleep 3]) = true ∧
  count_events is_sleep (evs ++ [EvSleep 3]) = 1%nat ∧
  (count_events is_download (evs ++ [EvSleep 3]) ≤ 1)%nat ∧
  (count_events is_save (evs ++ [EvSleep 3])
   ≤ count_events is_download (evs ++ [EvSleep 3]))%nat.
Proof.
  intros [->|[[geom ->]|(geom & G & ->)]]; cbv; auto.
Qed.

(** Downloads, saves, sleeps and rows of a loop. *)
Lemma main_loop_trace E D proj rows w w' r :
  main_loop E D proj rows w = (w', r) →
  ∃ evs new,
    trace w' = trace w ++ evs ∧
    csv_rows (csv w') = csv_rows (csv w) ++ new ∧
    delayed false evs = true ∧
    count_events is_sleep evs = length new ∧
    (count_events is_download evs ≤ length new)%nat ∧
    (count_events is_save evs ≤ count_events is_download evs)%nat.
Proof.
  revert w. induction rows as [|[idx row] rest IH]; intros w.
  - intros [= <- <-]. exists [], []. rewrite !app_nil_r. by cbv; auto.
  - rewrite main_loop_cons.
    destruct (iteration E D proj idx row w) as [w1 r1] eqn:Hit.
    assert (∃ evs1 new1,
      trace w1 = trace w ++ evs1 ∧
      csv_rows (csv w1) = csv_rows (csv w) ++ new1 ∧
      delayed false evs1 = true ∧
      count_events is_sleep evs1 = length new1 ∧
      (count_events is_download evs1 ≤ length new1)%nat ∧
      (count_events is_save evs1 ≤ count_events is_download evs1)%nat)
      as (evs1 & new1 & Htr1 & Hrows1 & Hd1 & Hs1 & Hdl1 & Hsv1).
    { apply iteration_detail in Hit
        as [(-> & _)|(_ & _ & _ & rec & evs & Hcsv & _ & Htr & Hshape & _)].
      { exists [], []. rewrite !app_nil_r. by cbv; auto. }
      exists (evs ++ [EvSleep 3]), [rec]. rewrite Hcsv, csv_rows_append.
      destruct (turn_events _ _ _ Hshape) as (? & ? & ? & ?). done. }
    destruct r1 as [[]|e].
    + intros Hloop.
      apply IH in Hloop as (evs & new & Htr & Hrows & Hd & Hs & Hdl & Hsv).
      exists (evs1 ++ evs), (new1 ++ new).
      rewrite Htr, Htr1, Hrows, Hrows1, <- !app_assoc, !count_events_app,
        length_app, (delayed_app _ _ _ Hd1).
      split_and!; auto; lia.
    + intros [= <- <-]. exists evs1, new1. done.
Qed.

(** The new rows follow the boundary file: their cities are names of
    its rows, in its order. *)
Lemma main_loop_cities E D proj rows w w' r :
  main_loop E D proj rows w = (w', r) →
  ∃ new, csv_rows (csv w') = csv_rows (csv w) ++ new ∧
    city <$> new `sublist_of` (λ ir, strip (name ir.2)) <$> rows.
Proof.
  revert w. induction rows as [|[idx row] rest IH]; intros w.
  - intros [= <- <-]. exists []. by rewrite app_nil_r.
  - rewrite main_loop_cons.
    destruct (iteration E D proj idx row w) as [w1 r1] eqn:Hit.
    assert (∃ new1, csv_rows (csv w1) = csv_rows (csv w) ++ new1 ∧
              city <$> new1 `sublist_of` [strip (name row)])
      as (new1 & Hrows1 & Hsub1).
    { apply iteration_detail in Hit
        as [(-> & _)|(_ & _ & _ & rec & evs & Hcsv & Hc & _)].
      { exists []. rewrite app_nil_r. split; [done|]. apply sublist_nil_l. }
      exists [rec]. rewrite Hcsv, csv_rows_append. split; [done|].
      simpl. by rewrite Hc. }
    destruct r1 as [[]|e].
    + intros Hloop. apply IH in Hloop as (new & Hrows & Hsub).
      exists (new1 ++ new). rewrite Hrows, Hrows1, <- app_assoc. split; [done|].
      rewrite fmap_app, fmap_cons. by apply (sublist_app _ [_]).
    + intros [= <- <-]. exists new1. split; [done|].
      rewrite fmap_cons. by apply (sublist_inserts_r _ _ [_]).
Qed.

(** The header of a log is never written again, and a loop that
    attempts no city leaves the log as it is. *)
Lemma main_loop_csv E D proj rows w w' r :
  main_loop E D proj rows w = (w', r) →
  ∃ new, csv_rows (csv w') = csv_rows (csv w) ++ new ∧
    (new = [] → csv w' = csv w) ∧
    (new ≠ [] →
     csv w' = Some (Table (fieldnames_of (csv w)) (csv_rows (csv w) ++ new))).
Proof.
  revert w. induction rows as [|[idx row] rest IH]; intros w.
  - intros [= <- <-]. exists []. by rewrite app_nil_r.
  - rewrite main_loop_cons.
    destruct (iteration E D proj idx row w) as [w1 r1] eqn:Hit.
    apply iteration_detail in Hit
      as [(-> & _)|(_ & _ & -> & rec & evs & Hcsv & _)].
    + destruct r1 as [[]|e]; [apply IH|].
      intros [= <- <-]. exists []. by rewrite app_nil_r.
    + intros Hloop. apply IH in Hloop as (new & Hrows & Hnil & Hcons).
      rewrite Hcsv, append_row_table in Hrows, Hnil, Hcons. simpl in *.
      exists (rec :: new). rewrite Hrows, <- app_assoc. split; [done|].
      split; [done|]. intros _. destruct new as [|rec' new].
      * by rewrite Hnil.
      * by rewrite Hcons, <- app_assoc.
Qed.

(** When the loop has gone through, each of its cities is in the skip
    set, on disk, or has a new row. *)
Lemma main_loop_accounts E D proj rows w w' :
  main_loop E D proj rows w = (w', Ok tt) →
  ∃ new, csv_rows (csv w') = csv_rows (csv w) ++ new ∧
    ∀ idx row, (idx, row) ∈ rows →
      strip (name row) ∈ D ∨
      is_Some (files w' !! save_path_of (strip (name row))) ∨
      ∃ rec, rec ∈ new ∧ city rec = strip (name row).
Proof.
  revert w. induction rows as [|[i0 row0] rest IH]; intros w.
  - intros [= <-]. exists []. rewrite app_nil_r. split; [done|]. no_elem.
  - rewrite main_loop_cons.
    destruct (iteration E D proj i0 row0 w) as [w1 r1] eqn:Hit.
    apply iteration_detail in Hit
      as [(-> & Hskip & Hnone)|(_ & _ & -> & rec & evs & Hcsv & Hc & _)].
    + destruct r1 as [[]|e]; [|done].
      intros Hloop. pose proof (main_loop_files _ _ _ _ _ _ _ Hloop) as [Hkeep _].
      apply (IH w) in Hloop as (new & Hrows & Hacc).
      exists new. split; [done|].
      intros idx row [[= -> ->]|Hin]%elem_of_cons; [|by apply (Hacc idx row)].
      destruct (proj1 Hskip eq_refl) as [?|[c Hc]]; [by left|].
      right. left. rewrite (Hkeep _ _ Hc). by eexists.
    + intros Hloop. apply IH in Hloop as (new & Hrows & Hacc).
      rewrite Hcsv, csv_rows_append in Hrows.
      exists (rec :: new). rewrite Hrows, <- app_assoc. split; [done|].
      intros idx row [[= -> ->]|Hin]%elem_of_cons.
      * right. right. exists rec. split; [by left|done].
      * destruct (Hacc idx row Hin) as [?|[?|(rec' & ? & ?)]]; auto.
        right. right. exists rec'. split; [by right|done].
Qed.


Lemma imap_snd {A B} (f : nat → A → B * A) (l : list A) :
  (∀ i a, (f i a).2 = a) → (λ ir, ir.2) <$> imap f l = l.
Proof.
  revert f. induction l as [|a l IH]; intros f Hf; [done|].
  rewrite imap_cons, fmap_cons, Hf. f_equal. apply IH. intros i b. apply Hf.
Qed.

Lemma iterrows_names china_cities :
  (λ ir, strip (name ir.2)) <$> iterrows china_cities
  = (λ row, strip (name row)) <$> china_cities.
Proof.
  rewrite <- (imap_snd pair china_cities) at 2 by done.
  by rewrite <- list_fmap_compose.
Qed.

(** The rows of the boundary file before row [idx], and those after. *)
Lemma iterrows_split china_cities idx row :
  china_cities !! idx = Some row →
  iterrows china_cities
  = take idx (iterrows china_cities)
    ++ (idx, row) :: drop (S idx) (iterrows china_cities).
Proof.
  intros Hrow. symmetry. apply take_drop_middle.
  unfold iterrows. by rewrite list_lookup_imap, Hrow.
Qed.

(** A loop over two stretches of rows is the loop over the first
    followed by the loop over the second. *)
Lemma main_loop_app E D proj rows1 rows2 w :
  main_loop E D proj (rows1 ++ rows2) w
  = match main_loop E D proj rows1 w with
    | (w1, Ok _) => main_loop E D proj rows2 w1
    | (w1, Raise e) => (w1, Raise e)
    end.
Proof.
  revert w. induction rows1 as [|[idx row] rows1 IH]; intros w; [done|].
  rewrite <- app_comm_cons, !main_loop_cons.
  destruct (iteration E D proj idx row w) as [w1 [[]|e]]; [apply IH|done].
Qed.

Lemma script_ok E china_cities w D :
  (load_downloaded_cities E w).2 = Ok D →
  script E china_cities w
  = main_loop E D (map (λ row, to_crs E (geometry row) 3857) china_cities)
      (iterrows china_cities) w.
Proof.
  unfold script, mbind, load_downloaded_cities. simpl. by intros ->.
Qed.






(** An attempt asks the provider as soon as it has a polygon. *)
Lemma download_city_asks E name g path a w w1 rb :
  download_city E name g path a w = (w1, rb) →
  ∃ evs, trace w1 = trace w ++ evs ∧
    ∀ geom,
      get_city_polygon (area E) (simplify E) g simplify_tolerance = Ok geom →
      EvDownload name geom network_type ∈ evs.
Proof.
  unfold download_city, mbind, lift, ret, ox_graph_from_polygon, ox_save_graphml.
  destruct (get_city_polygon _ _ g _) as [geom|e].
  2:{ intros [= <- <-]. exists []. rewrite app_nil_r. done. }
  destruct (graph_from_polygon E (trace w) geom network_type) as [d|e].
  2:{ intros [= <- <-]. eexists [_]. split; [done|].
      intros geom' [= <-]. by left. }
  destruct (largest_connected_component (to_undirected E d)) as [Gm|e].
  2:{ intros [= <- <-]. eexists [_]. split; [done|].
      intros geom' [= <-]. by left. }
  destruct (save_graphml E _ Gm path) as [|e left_file];
    intros [= <- <-]; simpl; eexists [_; _];
    (split; [by rewrite <- app_assoc|]); intros geom' [= <-]; by left.
Qed.

(** The turn of a city that is neither in the skip set nor on disk. *)
Lemma iteration_asks E D proj idx row w w' :
  strip (name row) ∉ D →
  files w !! save_path_of (strip (name row)) = None →
  iteration E D proj idx row w = (w', Ok tt) →
  ∃ evs rec,
    trace w' = trace w ++ evs ∧
    csv_rows (csv w') = csv_rows (csv w) ++ [rec] ∧
    city rec = strip (name row) ∧
    ∀ geom,
      get_city_polygon (area E) (simplify E) (geometry row) simplify_tolerance
      = Ok geom →
      EvDownload (strip (name row)) geom network_type ∈ evs.
Proof.
  intros Hd Hf Hit. apply iteration_inv in Hit
    as [(_ & Hskip & _)|(_ & _ & _ & gp & w1 & outcome & Hgp & Hdl & ->)].
  { destruct (proj1 Hskip eq_refl) as [?|[? Hs]]; [done|congruence]. }
  pose proof (download_city_inv _ _ _ _ _ _ _ _ Hdl) as (Hcsv & _ & Hout).
  apply download_city_asks in Hdl as (evs & Htr & Hasks).
  exists (evs ++ [EvSleep 3]), (outcome_record (strip (name row))
                                 (area E gp / 1000000) outcome).
  cbn [csv files trace]. rewrite csv_rows_append, Hcsv, Htr, <- app_assoc.
  split_and!; [done|done|..].
  - destruct outcome as [rec|e]; [|done].
    by destruct Hout as (d & Gm & _ & -> & _).
  - intros geom Hgeom. apply elem_of_app. left. by apply Hasks.
Qed.

(** A city that is not in the skip set, and not on disk when its turn
    comes, gets its turn in a loop that runs to its end. *)
Lemma main_loop_retries E D proj before idx row after w w' :
  strip (name row) ∉ D →
  files (main_loop E D proj before w).1 !! save_path_of (strip (name row))
  = None →
  main_loop E D proj (before ++ (idx, row) :: after) w = (w', Ok tt) →
  ∃ evs new rec,
    trace w' = trace w ++ evs ∧
    csv_rows (csv w') = csv_rows (csv w) ++ new ∧
    rec ∈ new ∧ city rec = strip (name row) ∧
    ∀ geom,
      get_city_polygon (area E) (simplify E) (geometry row) simplify_tolerance
      = Ok geom →
      EvDownload (strip (name row)) geom network_type ∈ evs.
Proof.
  intros Hd Hf Hafter. rewrite main_loop_app in Hafter.
  destruct (main_loop E D proj before w) as [w0 r0] eqn:Hbefore.
  cbn [fst] in Hf. destruct r0 as [[]|e]; [|done].
  rewrite main_loop_cons in Hafter.
  destruct (iteration E D proj idx row w0) as [w1 r1] eqn:Hit.
  destruct r1 as [[]|e]; [|done].
  apply main_loop_trace in Hbefore as (evs0 & new0 & Htr0 & Hrows0 & _).
  apply iteration_asks in Hit as (evs & rec & Htr & Hrows & Hc & Hasks);
    [|done..].
  apply main_loop_trace in Hafter as (evs2 & new2 & Htr2 & Hrows2 & _).
  exists (evs0 ++ evs ++ evs2), (new0 ++ rec :: new2), rec.
  rewrite Htr2, Htr, Htr0, Hrows2, Hrows, Hrows0, <- !app_assoc.
  split_and!; [done|done| |done|].
  - apply elem_of_app. right. by left.
  - intros geom Hgeom. rewrite !elem_of_app. right. left. by apply Hasks.
Qed.

End script_more.

(** * Whole runs *)

Section runs.
Import Graph Geometry Script.
Implicit Types (E : env) (w : world) (D : gset string).

(** X9: the log and the disk agree at the end of a run: for every
    success row the run appended, the city's [.graphml] file holds a
    graph with the node and edge counts of the row, and at least one
    node. *)
Theorem success_rows_have_files E china_cities w :
  ∃ new,
    csv_rows (csv (script E china_cities w).1) = csv_rows (csv w) ++ new ∧
    ∀ rec, rec ∈ new → status rec = "success" →
      ∃ G, files (script E china_cities w).1 !! save_path_of (city rec)
           = Some (GraphML G) ∧
           Script.nodes rec = Some (number_of_nodes G) ∧
           edges rec = Some (number_of_edges G) ∧
           (0 < number_of_nodes G)%nat.
Proof.
  destruct (script E china_cities w) as [w' r] eqn:Hs. simpl.
  apply script_inv in Hs as [[-> _]|(D & _ & Hloop)].
  - exists []. rewrite app_nil_r. split; [done|]. no_elem.
  - by apply main_loop_saved in Hloop.
Qed.

(** X10: in the external calls of a run, every download is followed by
    a sleep of 3 seconds before the next download, the last one
    included. *)
Theorem downloads_are_delayed E china_cities w :
  ∃ evs, trace (script E china_cities w).1 = trace w ++ evs ∧
         delayed false evs = true.
Proof.
  destruct (script E china_cities w) as [w' r] eqn:Hs. simpl.
  apply script_inv in Hs as [[-> _]|(D & _ & Hloop)].
  - exists []. by rewrite app_nil_r.
  - apply main_loop_trace in Hloop as (evs & new & ? & _ & ? & _). eauto.
Qed.

(** X11: a run sleeps 3 seconds exactly once for each row it appends,
    makes at most one download for each row, and saves no more often
    than it downloads. *)
Theorem one_sleep_per_row E china_cities w :
  ∃ evs new,
    trace (script E china_cities w).1 = trace w ++ evs ∧
    csv_rows (csv (script E china_cities w).1) = csv_rows (csv w) ++ new ∧
    count_events is_sleep evs = length new ∧
    (count_events is_download evs ≤ length new)%nat ∧
    (count_events is_save evs ≤ count_events is_download evs)%nat.
Proof.
  destruct (script E china_cities w) as [w' r] eqn:Hs. simpl.
  apply script_inv in Hs as [[-> _]|(D & _ & Hloop)].
  - exists [], []. rewrite !app_nil_r. by cbv; auto.
  - apply main_loop_trace in Hloop
      as (evs & new & ? & ? & _ & ? & ? & ?). exists evs, new. done.
Qed.

(** X12: the rows a run appends follow the boundary file: their cities
    are (stripped) names of its rows, in its order, at most one row for
    each row of the file; when the names of the file are all different,
    a run appends at most one row for a city. *)
Theorem rows_follow_boundary_file E china_cities w :
  ∃ new,
    csv_rows (csv (script E china_cities w).1) = csv_rows (csv w) ++ new ∧
    city <$> new `sublist_of` (λ row, strip (name row)) <$> china_cities ∧
    (length new ≤ length china_cities)%nat ∧
    (NoDup ((λ row, strip (name row)) <$> china_cities) →
     NoDup (city <$> new)).
Proof.
  destruct (script E china_cities w) as [w' r] eqn:Hs. simpl.
  assert (∃ new, csv_rows (csv w') = csv_rows (csv w) ++ new ∧
            city <$> new `sublist_of` (λ row, strip (name row)) <$> china_cities)
    as (new & Hrows & Hsub).
  { apply script_inv in Hs as [[-> _]|(D & _ & Hloop)].
    - exists []. rewrite app_nil_r. split; [done|]. apply sublist_nil_l.
    - apply main_loop_cities in Hloop as (new & ? & Hsub).
      rewrite iterrows_names in Hsub. eauto. }
  exists new. split_and!; [done|done|..].
  - apply sublist_length in Hsub. by rewrite !length_fmap in Hsub.
  - intros Hnd. by eapply sublist_NoDup.
Qed.


(** X14: the header of the log is written once: a run that appends rows
    to a log keeps its header line and its rows and adds the new rows
    at the end (with the header [city,status,nodes,edges,area_km2] in
    front when the log was absent or empty); a run that appends no row
    leaves the log as it is, and creates none. *)
Theorem header_is_written_once E china_cities w :
  ∃ new,
    csv_rows (csv (script E china_cities w).1) = csv_rows (csv w) ++ new ∧
    (new = [] → csv (script E china_cities w).1 = csv w) ∧
    (new ≠ [] →
     csv (script E china_cities w).1
     = Some (Table (fieldnames_of (csv w)) (csv_rows (csv w) ++ new))).
Proof.
  destruct (script E china_cities w) as [w' r] eqn:Hs. simpl.
  apply script_inv in Hs as [[-> _]|(D & _ & Hloop)].
  - exists []. by rewrite app_nil_r.
  - by apply main_loop_csv in Hloop.
Qed.

(** X16: a run that ends normally leaves no city of the boundary file
    out: each is in the skip set read at start-up, or has its file on
    disk at the end, or got a row in this run. *)
Theorem every_city_is_accounted_for E china_cities w D :
  (load_downloaded_cities E w).2 = Ok D →
  (script E china_cities w).2 = Ok tt →
  ∃ new,
    csv_rows (csv (script E china_cities w).1) = csv_rows (csv w) ++ new ∧
    ∀ row, row ∈ china_cities →
      strip (name row) ∈ D ∨
      is_Some (files (script E china_cities w).1
               !! save_path_of (strip (name row))) ∨
      ∃ rec, rec ∈ new ∧ city rec = strip (name row).
Proof.
  intros HD. rewrite (script_ok E china_cities w D HD).
  destruct (main_loop E D _ (iterrows china_cities) w) as [w' r] eqn:Hloop.
  simpl. intros ->. apply main_loop_accounts in Hloop as (new & Hrows & Hacc).
  exists new. split; [done|]. intros row [i Hi]%list_elem_of_lookup_1.
  apply (Hacc i row). by apply (elem_of_lookup_imap_2 pair).
Qed.


(** X20: a city of the boundary file that has no success row in the log
    the run starts from, and whose file is not on disk when its turn
    comes, is tried again by a run that ends normally: the run appends
    a row for it, and asks the provider for the polygon
    [get_city_polygon] makes of its geometry, if it makes one. *)
Theorem failed_cities_are_retried E china_cities w D idx row :
  (load_downloaded_cities E w).2 = Ok D →
  china_cities !! idx = Some row →
  (∀ rec, rec ∈ csv_rows (csv w) → city rec = strip (name row) →
          status rec ≠ "success") →
  files (main_loop E D
           (map (λ row, to_crs E (geometry row) 3857) china_cities)
           (take idx (iterrows china_cities)) w).1
    !! save_path_of (strip (name row)) = None →
  (script E china_cities w).2 = Ok tt →
  ∃ evs new rec,
    trace (script E china_cities w).1 = trace w ++ evs ∧
    csv_rows (csv (script E china_cities w).1) = csv_rows (csv w) ++ new ∧
    rec ∈ new ∧ city rec = strip (name row) ∧
    ∀ geom,
      get_city_polygon (area E) (simplify E) (geometry row) simplify_tolerance
      = Ok geom →
      EvDownload (strip (name row)) geom network_type ∈ evs.
Proof.
  intros HD Hrow Hfailed Hf. rewrite (script_ok E china_cities w D HD).
  destruct (main_loop E D _ (iterrows china_cities) w) as [w' r] eqn:Hloop.
  simpl. intros ->. rewrite (iterrows_split _ _ _ Hrow) in Hloop.
  eapply main_loop_retries; [|exact Hf|exact Hloop].
  intros (_ & rec & Hrec & Hc & Hst)%(read_downloaded_cities_spec E w D HD).
  by apply (Hfailed rec).
Qed.

End runs.


(** * The claims on sample inputs *)

Section samples.
Import Graph Geometry Script Examples.

(** C1 at a numeric name.  The log says that city 123 is done, and its
    file is not on disk.  pandas reads the city column as numbers, so
    the skip set holds the number 123 and not the name "123" that the
    loop asks for: the city is downloaded and saved again, and gets a
    second success row. *)
Theorem numeric_name_is_downloaded_again :
  (∃ rec, rec ∈ csv_rows (csv numbered) ∧
          city rec = "123" ∧ status rec = "success") ∧
  strip (name city123) = "123" ∧
  files numbered !! save_path_of "123" = None ∧
  script env_ok [city123] numbered
  = ({| files := {[ save_path_of "123" :=
                     GraphML (mkGraph [1; 2; 3; 4]
                                [(1, 2); (2, 3); (3, 1); (3, 4)]) ]};
        csv := Some (Table header
                 [{| city := "123"; status := "success"; nodes := Some 4%nat;
                     edges := Some 4%nat; area_km2 := 50 |};
                  {| city := "123"; status := "success"; nodes := Some 4%nat;
                     edges := Some 4%nat;
                     area_km2 := (plane_area (Polygon part50) / 1000000)%Q |}]);
        trace := [EvDownload "123" (Polygon part50) network_type;
                  EvSave (save_path_of "123")
                    (mkGraph [1; 2; 3; 4] [(1, 2); (2, 3); (3, 1); (3, 4)]);
                  EvSleep 3] |}, Ok tt).
Proof.
  split_and!.
  - eexists. split; [by left|]. split; reflexivity.
  - by vm_compute.
  - reflexivity.
  - by vm_compute.
Qed.

(** C7 at a numeric name.  The only row of the log is a success row of
    city 123.  pandas reads the field as a number, so no string is in
    the skip set: the name "123" of the success row is not. *)
Theorem numeric_name_is_not_in_skip_set :
  csv_rows (csv numbered)
  = [{| city := "123"; status := "success"; nodes := Some 4%nat;
        edges := Some 4%nat; area_km2 := 50 |}] ∧
  pd_kind env_ok "123" = Number ∧
  (load_downloaded_cities env_ok numbered).2 = Ok ∅ ∧
  ∀ D, (load_downloaded_cities env_ok numbered).2 = Ok D → "123" ∉ D.
Proof.
  assert ((load_downloaded_cities env_ok numbered).2 = Ok ∅) as HD
    by (by vm_compute).
  split_and!; [reflexivity|by vm_compute|exact HD|].
  intros D HD'. rewrite HD in HD'. injection HD' as <-. apply not_elem_of_empty.
Qed.

Lemma largest_connected_component_witness :
  Graph.nodes sizes352 ≠ [] ∧
  largest_connected_component sizes352
  = Ok (subgraph sizes352 (plain_bfs sizes352 4)) ∧
  subgraph sizes352 (plain_bfs sizes352 4)
  = mkGraph [4; 5; 6; 7; 8] [(4, 5); (5, 6); (6, 7); (7, 8); (8, 4)].
Proof.
  assert (Graph.nodes sizes352 ≠ []) as Hne by (vm_compute; discriminate).
  split; [exact Hne|]. split; [|vm_compute; reflexivity].
  apply (proj2 (largest_connected_component_spec sizes352 Hne)
           (plain_bfs sizes352 1) (plain_bfs sizes352 4) (plain_bfs sizes352 9)).
  - apply plain_bfs_component. in_list.
  - apply plain_bfs_component. in_list.
  - apply plain_bfs_component. in_list.
  - vm_compute; reflexivity.
  - vm_compute; reflexivity.
  - vm_compute; reflexivity.
  - apply Forall_forall. apply (bool_decide_unpack _). vm_compute. exact I.
Defined.

Lemma largest_connected_component_partial_witness :
  Graph.nodes no_nodes = [] ∧
  connected_components no_nodes = [] ∧
  largest_connected_component no_nodes = Raise max_empty_msg.
Proof.
  assert (Graph.nodes no_nodes = []) as Hnil by reflexivity.
  destruct (largest_connected_component_partial no_nodes) as (Hcc & Hmax & _).
  split; [exact Hnil|]. split; [by apply Hcc|by apply Hmax].
Defined.

Lemma get_city_polygon_witness :
  (plane_area (Polygon part10) == 10)%Q ∧
  (plane_area (Polygon part50) == 50)%Q ∧
  (plane_area (Polygon part2) == 2)%Q ∧
  get_city_polygon plane_area keep_all islands simplify_tolerance
  = Ok (keep_all (Polygon part50) simplify_tolerance true).
Proof.
  assert (plane_area (Polygon part10) == 10)%Q as H10 by reflexivity.
  assert (plane_area (Polygon part50) == 50)%Q as H50 by reflexivity.
  assert (plane_area (Polygon part2) == 2)%Q as H2 by reflexivity.
  split_and!; [done|done|done|].
  destruct (get_city_polygon_spec plane_area keep_all) as (_ & _ & _ & H & _).
  exact (H part10 part50 part2 H10 H50 H2).
Defined.

(** The provider is down: one failed row, nothing saved, nothing on
    disk. *)
Lemma failure_is_recorded_witness :
  ("Xian" ∉ (∅ : gset string)) ∧
  files fresh !! save_path_of "Xian" = None ∧
  [islands] !! 0%nat = Some islands ∧
  download_city env_timeout "Xian" islands (save_path_of "Xian")
    (plane_area islands / 1000000) fresh
  = (log (EvDownload "Xian" (Polygon part50) network_type) fresh,
     Raise "timeout") ∧
  save_call env_timeout "Xian" islands (save_path_of "Xian") fresh = None ∧
  ∃ w' evs,
    iteration env_timeout ∅ [islands] 0 xian fresh = (w', Ok tt) ∧
    csv_rows (csv w')
    = csv_rows (csv fresh)
      ++ [{| city := "Xian"; status := "failed: timeout";
             nodes := None; edges := None;
             area_km2 := (plane_area islands / 1000000)%Q |}] ∧
    trace w' = trace fresh ++ evs ++ [EvSleep 3] ∧
    ((∀ p G, EvSave p G ∉ evs) ∧ files w' = files fresh ∧
     files w' !! save_path_of "Xian" = None) ∧
    main_loop env_timeout ∅ [islands] [(0%nat, xian); (1%nat, lhasa)] fresh
    = main_loop env_timeout ∅ [islands] [(1%nat, lhasa)] w'.
Proof.
  assert ("Xian" ∉ (∅ : gset string)) as Hd by apply not_elem_of_empty.
  assert (files fresh !! save_path_of "Xian" = None) as Hf by reflexivity.
  assert ([islands] !! 0%nat = Some islands) as Hgp by reflexivity.
  assert (download_city env_timeout "Xian" islands (save_path_of "Xian")
            (plane_area islands / 1000000) fresh
          = (log (EvDownload "Xian" (Polygon part50) network_type) fresh,
             Raise "timeout")) as Hdl by reflexivity.
  assert (save_call env_timeout "Xian" islands (save_path_of "Xian") fresh
          = None) as Hsave by reflexivity.
  split_and!; [done..|].
  pose proof (failure_is_recorded env_timeout ∅ [islands] 0 xian [(1%nat, lhasa)]
                fresh islands Hd Hf Hgp _ _ Hdl) as (w' & evs & H).
  change (save_call env_timeout (strip (name xian)) (geometry xian)
            (save_path_of (strip (name xian))) fresh)
    with (save_call env_timeout "Xian" islands (save_path_of "Xian") fresh) in H.
  rewrite Hsave in H. exists w', evs. exact H.
Defined.

(** The same city, with a disk that fills up while the graph is
    written: the sequence raises, the row says "failed", and the file
    is there. *)
Lemma failed_save_leaves_file :
  (download_city env_disk_full "Xian" islands (save_path_of "Xian")
     (plane_area islands / 1000000) fresh).2
  = Raise "No space left on device" ∧
  files fresh !! save_path_of "Xian" = None ∧
  map (λ r, (city r, status r, Script.nodes r, edges r))
    (csv_rows (csv (script env_disk_full [xian] fresh).1))
  = [("Xian", "failed: No space left on device", None, None)] ∧
  files (script env_disk_full [xian] fresh).1 !! save_path_of "Xian"
  = Some Truncated.
Proof. by vm_compute. Qed.

Lemma two_runs_one_success_row_witness :
  success_once (csv_rows (csv fresh)) ∧
  (∀ n, success_rows n (csv_rows (csv fresh)) ≠ [] →
        is_Some (files fresh !! save_path_of n)) ∧
  success_once
    (csv_rows (csv (script env_ok [xian; lhasa]
                      (script env_timeout [xian; lhasa] fresh).1).1)).
Proof.
  assert (success_once (csv_rows (csv fresh))) as Honce.
  { intros n. simpl. lia. }
  assert (∀ n, success_rows n (csv_rows (csv fresh)) ≠ [] →
               is_Some (files fresh !! save_path_of n)) as Hdone.
  { intros n Hsr. by destruct Hsr. }
  exact (conj Honce (conj Hdone
           (two_runs_one_success_row env_timeout env_ok [xian; lhasa] fresh
              Honce Hdone))).
Defined.

(** The provider is down for both runs: Xian has two rows. *)
Lemma failed_city_logged_twice :
  map (λ r, (city r, status r))
    (csv_rows (csv (script env_timeout [xian]
                      (script env_timeout [xian] fresh).1).1))
  = [("Xian", "failed: timeout"); ("Xian", "failed: timeout")] ∧
  length (rows_of "Xian"
            (csv_rows (csv (script env_timeout [xian]
                              (script env_timeout [xian] fresh).1).1)))
  = 2%nat.
Proof. by vm_compute. Qed.

Lemma success_is_recorded_witness :
  ("Xian" ∉ (∅ : gset string)) ∧
  files fresh !! save_path_of "Xian" = None ∧
  [islands] !! 0%nat = Some islands ∧
  download_city env_ok "Xian" islands (save_path_of "Xian")
    (plane_area islands / 1000000) fresh
  = ((download_city env_ok "Xian" islands (save_path_of "Xian")
        (plane_area islands / 1000000) fresh).1,
     Ok (success_record "Xian"
           (mkGraph [1; 2; 3; 4] [(1, 2); (2, 3); (3, 1); (3, 4)])
           (plane_area islands / 1000000))) ∧
  ∃ w' G_main,
    iteration env_ok ∅ [islands] 0 xian fresh = (w', Ok tt) ∧
    Script.nodes <$> csv_rows (csv w') = [Some (number_of_nodes G_main)] ∧
    edges <$> csv_rows (csv w') = [Some (number_of_edges G_main)] ∧
    (0 < number_of_nodes G_main)%nat ∧
    files w' !! save_path_of "Xian" = Some (GraphML G_main) ∧
    csv w' = Some (Table header (csv_rows (csv w'))).
Proof.
  assert ("Xian" ∉ (∅ : gset string)) as Hd by apply not_elem_of_empty.
  assert (files fresh !! save_path_of "Xian" = None) as Hf by reflexivity.
  assert ([islands] !! 0%nat = Some islands) as Hgp by reflexivity.
  assert (download_city env_ok "Xian" islands (save_path_of "Xian")
            (plane_area islands / 1000000) fresh
          = ((download_city env_ok "Xian" islands (save_path_of "Xian")
                (plane_area islands / 1000000) fresh).1,
             Ok (success_record "Xian"
                   (mkGraph [1; 2; 3; 4] [(1, 2); (2, 3); (3, 1); (3, 4)])
                   (plane_area islands / 1000000)))) as Hdl
    by (vm_compute; reflexivity).
  split_and!; [done..|].
  destruct (success_is_recorded env_ok ∅ [islands] 0 xian fresh islands
              Hd Hf Hgp _ _ Hdl)
    as (w' & G_main & Hit & Hrows & Hrec & Hpos & _ & Hfile & _ & Hcsv).
  exists w', G_main. rewrite Hrows.
  split_and!; [done|by rewrite Hrec|by rewrite Hrec|done|done|by rewrite Hcsv].
Defined.

(** A polygon with one junction and no street: the run succeeds and
    the edge count in the row is 0. *)
Lemma lone_node_success_has_no_edges :
  (download_city env_lone_node "Xian" islands (save_path_of "Xian")
     (plane_area islands / 1000000) fresh).2
  = Ok (success_record "Xian" (mkGraph [7] []) (plane_area islands / 1000000)) ∧
  map (λ r, (city r, status r, Script.nodes r, edges r))
    (csv_rows (csv (script env_lone_node [xian] fresh).1))
  = [("Xian", "success", Some 1%nat, Some 0%nat)] ∧
  files (script env_lone_node [xian] fresh).1 !! save_path_of "Xian"
  = Some (GraphML (mkGraph [7] [])).
Proof. by vm_compute. Qed.

(** Xian is attempted and the turn ends with the sleep; with its file on
    disk the turn changes nothing. *)
Lemma sleep_follows_each_attempt_witness :
  iteration env_ok ∅ [islands] 0 xian file_only = (file_only, Ok tt) ∧
  ∃ w' evs rec,
    iteration env_timeout ∅ [islands] 0 xian fresh = (w', Ok tt) ∧
    trace w' = trace fresh ++ evs ++ [EvSleep 3] ∧
    (∀ seconds, EvSleep seconds ∉ evs) ∧
    csv_rows (csv w') = csv_rows (csv fresh) ++ [rec] ∧
    (status rec = "success" ∨ ∃ e, status rec = "failed: " +:+ e).
Proof.
  split.
  - apply (proj1 (sleep_follows_each_attempt env_ok ∅ [islands] 0 xian file_only)).
    right. vm_compute. eauto.
  - apply (proj2 (sleep_follows_each_attempt env_timeout ∅ [islands] 0 xian fresh)
             islands); [apply not_elem_of_empty|reflexivity|reflexivity].
Defined.

(** Xian is in the boundary file and its file is on disk: the run skips
    it, and ends without a single sleep. *)
Lemma skipped_city_does_not_sleep :
  xian ∈ [xian] ∧
  is_Some (files file_only !! save_path_of (strip (name xian))) ∧
  script env_ok [xian] file_only = (file_only, Ok tt) ∧
  trace (script env_ok [xian] file_only).1 = [] ∧
  ∀ seconds, EvSleep seconds ∉ trace (script env_ok [xian] file_only).1.
Proof.
  split_and!.
  - by left.
  - vm_compute. eauto.
  - by vm_compute.
  - by vm_compute.
  - intros seconds Hin. vm_compute in Hin. inversion Hin.
Qed.

Lemma every_row_carries_area_witness :
  ∃ new,
    csv_rows (csv (script env_disk_full [xian; lhasa] resumed).1)
    = csv_rows (csv resumed) ++ new ∧
    ∀ rec, rec ∈ new →
      (status rec = "success" ∨ ∃ e, status rec = "failed: " +:+ e) ∧
      ∃ idx row, [xian; lhasa] !! idx = Some row ∧
        city rec = strip (name row) ∧
        area_km2 rec = (plane_area (geometry row) / 1000000)%Q.
Proof. exact (every_row_carries_area env_disk_full [xian; lhasa] resumed). Defined.

End samples.

(** * Further sample runs *)

Section more_samples.
Import Graph Geometry Script Examples.

Lemma largest_is_connected_witness :
  largest_connected_component sizes352 = Ok ring5 ∧
  4 ∈ Graph.nodes ring5 ∧ 7 ∈ Graph.nodes ring5 ∧
  connected ring5 4 7.
Proof.
  assert (largest_connected_component sizes352 = Ok ring5) as Hlcc
    by (vm_compute; reflexivity).
  assert (4 ∈ Graph.nodes ring5) as H4 by in_list.
  assert (7 ∈ Graph.nodes ring5) as H7 by in_list.
  split_and!; [done..|].
  exact (largest_is_connected sizes352 ring5 4 7 Hlcc H4 H7).
Defined.

Lemma largest_idempotent_witness :
  largest_connected_component sizes352 = Ok ring5 ∧
  largest_connected_component ring5 = Ok ring5.
Proof.
  assert (largest_connected_component sizes352 = Ok ring5) as Hlcc
    by (vm_compute; reflexivity).
  exact (conj Hlcc (largest_idempotent sizes352 ring5 Hlcc)).
Defined.

Lemma largest_is_subgraph_witness :
  largest_connected_component sizes352 = Ok ring5 ∧
  Graph.nodes ring5 ⊆+ Graph.nodes sizes352 ∧
  g_edges ring5 ⊆+ g_edges sizes352 ∧
  (number_of_nodes ring5 ≤ number_of_nodes sizes352)%nat ∧
  (number_of_edges ring5 ≤ number_of_edges sizes352)%nat.
Proof.
  assert (largest_connected_component sizes352 = Ok ring5) as Hlcc
    by (vm_compute; reflexivity).
  exact (conj Hlcc (largest_is_subgraph sizes352 ring5 Hlcc)).
Defined.

Lemma largest_cuts_no_edge_witness :
  largest_connected_component sizes352 = Ok ring5 ∧
  (8, 4) ∈ g_edges sizes352 ∧
  ((8, 4).1 ∈ Graph.nodes ring5 ∨ (8, 4).2 ∈ Graph.nodes ring5) ∧
  (8, 4) ∈ g_edges ring5.
Proof.
  assert (largest_connected_component sizes352 = Ok ring5) as Hlcc
    by (vm_compute; reflexivity).
  assert ((8, 4) ∈ g_edges sizes352) as He by in_list.
  assert ((8, 4).1 ∈ Graph.nodes ring5 ∨ (8, 4).2 ∈ Graph.nodes ring5) as Hend
    by (left; in_list).
  split_and!; [done..|].
  exact (largest_cuts_no_edge sizes352 ring5 (8, 4) Hlcc He Hend).
Defined.

(** Of the two pairs the first is kept. *)
Lemma largest_first_of_equals_witness :
  largest_connected_component two_pairs = Ok (mkGraph [1; 2] [(1, 2)]) ∧
  ∃ before c after,
    connected_components two_pairs = before ++ c :: after ∧
    mkGraph [1; 2] [(1, 2)] = subgraph two_pairs c ∧
    Forall (λ c', (length c' < length c)%nat) before ∧
    Forall (λ c', (length c' ≤ length c)%nat) after.
Proof.
  assert (largest_connected_component two_pairs = Ok (mkGraph [1; 2] [(1, 2)]))
    as Hlcc by (vm_compute; reflexivity).
  exact (conj Hlcc (largest_first_of_equals two_pairs _ Hlcc)).
Defined.

(** Of the two parts of area 10 the first is kept. *)
Lemma get_city_polygon_first_of_equals_witness :
  get_city_polygon plane_area keep_all twins simplify_tolerance
  = Ok (Polygon part10) ∧
  ∃ before p after,
    [part2; part10; rect 30 0 2 5] = before ++ p :: after ∧
    get_city_polygon plane_area keep_all (Polygon p) simplify_tolerance
    = Ok (Polygon part10) ∧
    Forall (λ q, (plane_area (Polygon q) < plane_area (Polygon p))%Q) before ∧
    Forall (λ q, (plane_area (Polygon q) <= plane_area (Polygon p))%Q) after.
Proof.
  assert (get_city_polygon plane_area keep_all twins simplify_tolerance
          = Ok (Polygon part10)) as Hg by (vm_compute; reflexivity).
  exact (conj Hg (get_city_polygon_first_of_equals plane_area keep_all
                    _ simplify_tolerance _ Hg)).
Defined.


(** Lhasa has a success row in a log whose city column is text: the run
    passes it over, although its file is not on disk. *)
Lemma done_cities_are_skipped_witness :
  ((reads_back env_ok (csv_rows (csv resumed)) "Lhasa" ∧
    ∃ rec, rec ∈ csv_rows (csv resumed) ∧
           city rec = "Lhasa" ∧ status rec = "success") ∨
   is_Some (files resumed !! save_path_of "Lhasa")) ∧
  ∃ evs new,
    trace (script env_ok [xian; lhasa] resumed).1 = trace resumed ++ evs ∧
    (∀ geom nt, EvDownload "Lhasa" geom nt ∉ evs) ∧
    csv_rows (csv (script env_ok [xian; lhasa] resumed).1)
    = csv_rows (csv resumed) ++ new ∧
    (∀ rec, rec ∈ new → city rec ≠ "Lhasa").
Proof.
  assert ((reads_back env_ok (csv_rows (csv resumed)) "Lhasa" ∧
           ∃ rec, rec ∈ csv_rows (csv resumed) ∧
                  city rec = "Lhasa" ∧ status rec = "success") ∨
          is_Some (files resumed !! save_path_of "Lhasa")) as Hdone.
  { left. split.
    - split; [by vm_compute|]. vm_compute. discriminate.
    - eexists. split; [simpl; right; left|]. split; reflexivity. }
  exact (conj Hdone
           (done_cities_are_skipped env_ok [xian; lhasa] resumed "Lhasa" Hdone)).
Defined.


Lemma every_city_is_accounted_for_witness :
  (load_downloaded_cities env_timeout resumed).2 = Ok {["Lhasa"]} ∧
  (script env_timeout [xian; lhasa] resumed).2 = Ok tt ∧
  ∃ new,
    csv_rows (csv (script env_timeout [xian; lhasa] resumed).1)
    = csv_rows (csv resumed) ++ new ∧
    ∀ row, row ∈ [xian; lhasa] →
      strip (name row) ∈ ({["Lhasa"]} : gset string) ∨
      is_Some (files (script env_timeout [xian; lhasa] resumed).1
               !! save_path_of (strip (name row))) ∨
      ∃ rec, rec ∈ new ∧ city rec = strip (name row).
Proof.
  assert ((load_downloaded_cities env_timeout resumed).2 = Ok {["Lhasa"]}) as HD
    by (vm_compute; reflexivity).
  assert ((script env_timeout [xian; lhasa] resumed).2 = Ok tt) as Hend
    by (by vm_compute).
  exact (conj HD (conj Hend
           (every_city_is_accounted_for env_timeout [xian; lhasa]
              resumed _ HD Hend))).
Defined.


(** Lhasa comes after Xian in the boundary file and has no success row;
    Xian fails again and leaves no file, and when the turn of Lhasa
    comes it is tried, and the provider is asked for its polygon. *)
Lemma failed_cities_are_retried_witness :
  (load_downloaded_cities env_disk_full fresh).2 = Ok ∅ ∧
  [xian; lhasa] !! 1%nat = Some lhasa ∧
  (∀ rec, rec ∈ csv_rows (csv fresh) → city rec = strip (name lhasa) →
          status rec ≠ "success") ∧
  files (main_loop env_disk_full ∅
           (map (λ row, to_crs env_disk_full (geometry row) 3857) [xian; lhasa])
           (take 1 (iterrows [xian; lhasa])) fresh).1
    !! save_path_of (strip (name lhasa)) = None ∧
  (script env_disk_full [xian; lhasa] fresh).2 = Ok tt ∧
  get_city_polygon plane_area keep_all (Polygon part50) simplify_tolerance
  = Ok (Polygon part50) ∧
  ∃ evs new rec,
    trace (script env_disk_full [xian; lhasa] fresh).1 = trace fresh ++ evs ∧
    csv_rows (csv (script env_disk_full [xian; lhasa] fresh).1)
    = csv_rows (csv fresh) ++ new ∧
    rec ∈ new ∧ city rec = strip (name lhasa) ∧
    EvDownload (strip (name lhasa)) (Polygon part50) network_type ∈ evs.
Proof.
  assert ((load_downloaded_cities env_disk_full fresh).2 = Ok ∅) as HD
    by reflexivity.
  assert ([xian; lhasa] !! 1%nat = Some lhasa) as Hrow by reflexivity.
  assert (∀ rec, rec ∈ csv_rows (csv fresh) → city rec = strip (name lhasa) →
                 status rec ≠ "success") as Hfailed.
  { intros rec Hrec. inversion Hrec. }
  assert (files (main_loop env_disk_full ∅
                   (map (λ row, to_crs env_disk_full (geometry row) 3857)
                      [xian; lhasa])
                   (take 1 (iterrows [xian; lhasa])) fresh).1
            !! save_path_of (strip (name lhasa)) = None) as Hf
    by (by vm_compute).
  assert ((script env_disk_full [xian; lhasa] fresh).2 = Ok tt) as Hend
    by (by vm_compute).
  assert (get_city_polygon plane_area keep_all (Polygon part50)
            simplify_tolerance = Ok (Polygon part50)) as Hgeom
    by (by vm_compute).
  split_and!; [done..|].
  destruct (failed_cities_are_retried env_disk_full [xian; lhasa] fresh ∅ 1 lhasa
              HD Hrow Hfailed Hf Hend)
    as (evs & new & rec & Htr & Hrows & Hrec & Hc & Hasks).
  exists evs, new, rec. split_and!; [done..|]. by apply Hasks.
Defined.

End more_samples.
